(** * bitcointool: the hdderive range expander and the sign command

    A shallow embedding of the two pieces of logic that
    [src/tools/bitcointool.c] implements itself: the scan of a key path for
    a range marker with the expansion loop that follows it (command
    [hdderive]) and the orchestration of hashing and signing one
    transaction input (command [sign]).  What the tool delegates to the
    library (key derivation, hashing, signing, hex conversion) is left
    abstract: a section variable for [hd_derive], a record of primitives
    for the sign command. *)

From Stdlib Require Import ZArith Ascii String Bool Lia List.
Import ListNotations.
Open Scope Z_scope.

(** ** C data shared by both commands *)

Definition NUL : ascii := Ascii.zero.

(** The characters of a C string, terminator excluded. *)
Definition chars := list ascii.

Definition strlen (s : chars) : Z := Z.of_nat (length s).

(** A C string holds no NUL before its terminator. *)
Definition c_string (s : chars) : bool :=
  forallb (fun c => negb (Ascii.eqb c NUL)) s.

(** A byte of memory: written, or indeterminate (a fresh automatic array). *)
Inductive mbyte : Type :=
| Undef : mbyte
| Byte : ascii -> mbyte.

Definition buffer := list mbyte.

(** The memory a [char*] argument points to when it is a proper C string. *)
Definition c_literal (s : chars) : buffer := map Byte s ++ [Byte NUL].

(** What a callee reads from a [char*]: the bytes up to the first NUL.
    [None]: it meets an indeterminate byte or the end of the object first. *)
Fixpoint read_cstr (b : buffer) : option chars :=
  match b with
  | [] => None
  | Undef :: _ => None
  | Byte c :: b' =>
      if Ascii.eqb c NUL then Some []
      else option_map (cons c) (read_cstr b')
  end.

(** [memcpy(dst + off, src, n)] within the bounds of both objects. *)
Definition memcpy (dst : buffer) (off : nat) (src : buffer) (n : nat) : buffer :=
  firstn off dst ++ firstn n src ++ skipn (off + n) dst.

(** [strchr(s, c) != NULL]; the terminator of [s] counts as part of it. *)
Definition strchr (s : chars) (c : ascii) : bool :=
  Ascii.eqb c NUL || existsb (Ascii.eqb c) s.

Definition digits : chars := list_ascii_of_string "0123456789".

(** [c] is one of the ten characters of [digits]. *)
Definition is_digit (c : ascii) : bool := existsb (Ascii.eqb c) digits.

Definition digit_val (c : ascii) : Z := Z.of_nat (nat_of_ascii c) - 48.

(** [strtoull(buf, NULL, 10)] on a buffer that starts with decimal digits:
    the value of the longest digit prefix, 0 when it is empty, saturating.
    (White space and a sign are not modelled: the scan below only ever
    copies digit characters into the buffer.) *)
Fixpoint strtoull_acc (s : chars) (acc : Z) : Z :=
  match s with
  | [] => acc
  | c :: s' =>
      if is_digit c
      then strtoull_acc s' (10 * acc + digit_val c)
      else acc
  end.

Definition ULLONG_MAX : Z := 2 ^ 64 - 1.

Definition strtoull (s : chars) : Z := Z.min (strtoull_acc s 0) ULLONG_MAX.

Definition digit_char (d : Z) : ascii := ascii_of_nat (Z.to_nat (48 + d)).

(** The digits of a non-negative number, most significant first. *)
Fixpoint utoa (fuel : nat) (n : Z) (acc : chars) : chars :=
  match fuel with
  | O => acc
  | S f =>
      let acc' := digit_char (n mod 10) :: acc in
      if n / 10 =? 0 then acc' else utoa f (n / 10) acc'
  end.

(** [sprintf(index, "%lld", i)] for a 64-bit [i]: the argument is read as a
    signed 64-bit number. *)
Definition sprintf_lld (i : Z) : chars :=
  let v := if i mod 2 ^ 64 >=? 2 ^ 63 then i mod 2 ^ 64 - 2 ^ 64 else i mod 2 ^ 64 in
  if v <? 0 then "-"%char :: utoa 20 (- v) [] else utoa 20 v [].

(** [printf("%d", n)] for an [int]. *)
Definition sprintf_d (n : Z) : chars :=
  if n <? 0 then "-"%char :: utoa 20 (- n) [] else utoa 20 n [].

(** Unsigned 32-bit wrap-around ([unsigned int] arithmetic). *)
Definition u32 (z : Z) : Z := z mod 2 ^ 32.

(** Conversion of an [int] to [size_t]. *)
Definition to_size_t (z : Z) : Z := z mod 2 ^ 64.

(** Concrete expressions are written as string literals. *)
Definition chars_of (s : string) : chars := list_ascii_of_string s.

(** The newline that ends a [printf] format. *)
Definition nl : string := String (ascii_of_nat 10) EmptyString.

(** ** Command [hdderive] *)

Module HdDerive.

Definition maxlen : Z := 1024.

Record scan_state : Type := mk_scan {
  posanum : Z;
  posbnum : Z;
  end_ : Z;
  from : option Z;   (* [None]: not assigned yet *)
  to : option Z
}.

Definition scan_init : scan_state := mk_scan (-1) (-1) (-1) None None.

Inductive flow : Type :=
| Continue : scan_state -> flow
| Break : scan_state -> flow.

Definition is_open (c : ascii) : bool :=
  Ascii.eqb c "["%char || Ascii.eqb c "("%char.

Definition is_close (c : ascii) : bool :=
  Ascii.eqb c "]"%char || Ascii.eqb c ")"%char.

(** [char buf[9] = {0}; memcpy(buf, &keypath[pos], n)], read back as a
    string. *)
Definition numeral_buf (keypath : chars) (pos n : Z) : chars :=
  firstn (Z.to_nat n) (skipn (Z.to_nat pos) keypath).

(** The last statement of the loop body: an opening bracket starts a
    candidate marker. *)
Definition open_test (i : Z) (c : ascii) (st : scan_state) : flow :=
  if is_open c
  then Continue (mk_scan (i + 1) (posbnum st) (end_ st) (from st) (to st))
  else Continue st.

(** One iteration of the scan, at index [i] with [c = keypath[i]]. *)
Definition scan_body (keypath : chars) (i : Z) (c : ascii) (st : scan_state) : flow :=
  if (posanum st >? -1) && (posbnum st =? -1) then
    if Ascii.eqb c "-"%char then
      if u32 (i - posanum st) >=? 9 then Break st
      else
        let f := strtoull (numeral_buf keypath (posanum st) (u32 (i - posanum st))) in
        open_test i c (mk_scan (posanum st) (i + 1) (end_ st) (Some f) (to st))
    else if negb (strchr digits c) then
      Break (mk_scan (-1) (posbnum st) (end_ st) (from st) (to st))
    else open_test i c st
  else if (posanum st >? -1) && (posbnum st >? -1) then
    if is_close c then
      if u32 (i - posbnum st) >=? 9 then Break st
      else
        let t := strtoull (numeral_buf keypath (posbnum st) (u32 (i - posbnum st))) in
        Break (mk_scan (posanum st) (posbnum st) (i + 1) (from st) (Some t))
    else if negb (strchr digits c) then
      Break (mk_scan (-1) (-1) (end_ st) (from st) (to st))
    else open_test i c st
  else open_test i c st.

(** [for (unsigned int i = 0; i < strlen(keypath); i++)]: [rest] is the part
    of [keypath] from index [i] on. *)
Fixpoint scan_loop (keypath rest : chars) (i : Z) (st : scan_state) : scan_state :=
  match rest with
  | [] => st
  | c :: rest' =>
      if i >? maxlen then st
      else match scan_body keypath i c st with
           | Break st' => st'
           | Continue st' => scan_loop keypath rest' (i + 1) st'
           end
  end.

Definition scan (keypath : chars) : scan_state :=
  scan_loop keypath keypath 0 scan_init.

(** [end > -1 && from <= to]; [&&] does not read [from] and [to] when
    [end] is still -1. *)
Definition range_found (st : scan_state) : bool :=
  (end_ st >? -1) &&
  match from st, to st with
  | Some f, Some t => f <=? t
  | _, _ => false
  end.

(** The array [keypathnew] after the three [memcpy] calls of one iteration.
    It is a fresh variable-length array, and no terminator is stored. *)
Definition keypathnew (keypath : chars) (st : scan_state) (i : Z) : buffer :=
  let vla := repeat Undef (length keypath + 16) in
  let pre := Z.to_nat (posanum st - 1) in
  let b1 := memcpy vla 0 (map Byte keypath) pre in
  let index := sprintf_lld i in
  let b2 := memcpy b1 pre (map Byte index) (length index) in
  memcpy b2 (pre + length index)
         (map Byte (skipn (Z.to_nat (end_ st)) keypath))
         (Z.to_nat (strlen keypath - end_ st)).

(** The paths built by [for (uint64_t i = from; i <= to; i++)], in order;
    [n] bounds the number of iterations left. *)
Fixpoint range_paths (keypath : chars) (st : scan_state) (n : nat) (i t : Z)
  : list buffer :=
  match n with
  | O => []
  | S n' =>
      if i <=? t
      then keypathnew keypath st i :: range_paths keypath st n' (i + 1) t
      else []
  end.

(** The expander: the arguments that [hdderive] hands to [hd_derive], in
    order. *)
Definition expand (keypath : chars) : list buffer :=
  let st := scan keypath in
  if range_found st then
    match from st, to st with
    | Some f, Some t => range_paths keypath st (Z.to_nat (t + 1 - f)) f t
    | _, _ => []
    end
  else [c_literal keypath].

(** *** The command around the expander *)

(** What the command does that can be observed, in program order. *)
Inductive event : Type :=
| HdDerive : buffer -> event        (* a call of [hd_derive] on this memory *)
| HdPrintNode : chars -> event      (* [hd_print_node] on a derived key *)
| Printf : string -> event
| EccStop : event.

(** [showError]: print, stop the ECC context, and [main] returns 1. *)
Definition showError (er : string) : list event * Z :=
  ([Printf ("Error: " ++ er ++ nl); EccStop], 1).

Definition pkey_error : string := "Missing extended key (use -p)".

Section Command.

(** [hd_derive(chain, pkey, path, newextkey, sizeout)]: the derived key, or
    [None] when the library reports failure.  It receives the memory behind
    the path pointer. *)
Variable hd_derive : chars -> buffer -> option chars.

Fixpoint derive_range (pkey keypath : chars) (st : scan_state) (n : nat)
  (i t : Z) : list event * Z :=
  match n with
  | O => ([EccStop], 0)
  | S n' =>
      if i <=? t then
        let path := keypathnew keypath st i in
        match hd_derive pkey path with
        | None =>
            let (ev, rc) := showError ("Deriving child key failed" ++ nl) in
            (HdDerive path :: ev, rc)
        | Some newextkey =>
            let (ev, rc) := derive_range pkey keypath st n' (i + 1) t in
            (HdDerive path :: HdPrintNode newextkey :: ev, rc)
        end
      else ([EccStop], 0)
  end.

(** The branch [strcmp(cmd, "hdderive") == 0] of [main] with what follows
    it: the trace and the exit status. *)
Definition hdderive (pkey keypath : option chars) : list event * Z :=
  match pkey with
  | None => showError pkey_error
  | Some pk =>
      match keypath with
      | None => showError "Missing keypath (use -m)"
      | Some kp =>
          let st := scan kp in
          if range_found st then
            match from st, to st with
            | Some f, Some t => derive_range pk kp st (Z.to_nat (t + 1 - f)) f t
            | _, _ => ([EccStop], 0)
            end
          else
            match hd_derive pk (c_literal kp) with
            | None =>
                let (ev, rc) := showError ("Deriving child key failed" ++ nl) in
                (HdDerive (c_literal kp) :: ev, rc)
            | Some newextkey =>
                ([HdDerive (c_literal kp); HdPrintNode newextkey; EccStop], 0)
            end
      end
  end.

End Command.

End HdDerive.

(** ** Command [sign] *)

Module Sign.

Inductive chainparams : Type := chain_main | chain_test | chain_regtest.

Inductive sigversion : Type := SIGVERSION_BASE | SIGVERSION_WITNESS_V0.

Definition bytes := list Init.Byte.byte.

(** The part of the library that the command calls.  The types of
    transactions, keys, script classes and signing results belong to the
    library as well. *)
Record libbtc : Type := {
  btc_tx : Type;
  btc_key : Type;
  btc_tx_out_type : Type;
  btc_tx_sign_result : Type;
  utils_hex_to_bin : string -> bytes;
  utils_bin_to_hex : bytes -> string;
  utils_uint8_to_hex : bytes -> string;
  utils_reverse_hex : string -> string;
  (* [None]: the bytes are no transaction *)
  btc_tx_deserialize : bytes -> option btc_tx;
  (* [tx->vin->len], a [size_t] *)
  vin_len : btc_tx -> Z;
  (* transaction, script, input index, hash type, amount, version *)
  btc_tx_sighash : btc_tx -> bytes -> Z -> Z -> Z -> sigversion -> bytes;
  btc_script_classify : bytes -> btc_tx_out_type;
  btc_tx_out_type_to_str : btc_tx_out_type -> string;
  (* the key argument may be a null pointer *)
  btc_privkey_decode_wif : option string -> chainparams -> option btc_key;
  (* transaction, script, amount, key, input index, hash type; it returns
     the result, [sigcompact], the first [sigderlen] bytes of
     [sigder_plus_hashtype], and the transaction as it leaves it *)
  btc_tx_sign_input :
    btc_tx -> bytes -> Z -> btc_key -> Z -> Z ->
    btc_tx_sign_result * bytes * bytes * btc_tx;
  (* [res == BTC_SIGN_OK] *)
  is_sign_ok : btc_tx_sign_result -> bool;
  btc_tx_sign_result_to_str : btc_tx_sign_result -> string;
  btc_tx_serialize : btc_tx -> bytes
}.

Section Command.

Variable L : libbtc.

(** What the command does that can be observed, in program order: what it
    prints, the library calls that hash, decode the key and sign, and the
    release of its resources. *)
Inductive event : Type :=
| Printf : string -> event
| TxSighash : btc_tx L -> bytes -> Z -> Z -> Z -> sigversion -> event
| PrivkeyDecodeWif : option string -> chainparams -> event
| TxSignInput : btc_tx L -> bytes -> Z -> btc_key L -> Z -> Z -> event
| FreeDataBin : event
| TxFree : event            (* [btc_tx_free(tx)] *)
| ScriptFree : event        (* [cstr_free(script, true)] *)
| SignedTxFree : event      (* [cstr_free(signed_tx, true)] *)
| EccStop : event.

(** How [main] ends: with an exit status, or in undefined behaviour. *)
Inductive outcome : Type :=
| Exit : Z -> outcome
| Undefined : outcome.

Definition run : Type := (list event * outcome)%type.

(** [showError]: print, stop the ECC context, and [main] returns 1. *)
Definition showError (er : string) : run :=
  ([Printf ("Error: " ++ er ++ nl); EccStop], Exit 1).

(** Events of the caller, then the callee's run. *)
Definition after (evs : list event) (r : run) : run :=
  (evs ++ fst r, snd r).

Definition string_len (s : string) : Z := Z.of_nat (String.length s).

Definition show_int (n : Z) : string := string_of_list_ascii (sprintf_d n).

(** The five [printf] calls that follow the hash computation. *)
Definition diagnostics (scripthex : string) (type : btc_tx_out_type L)
  (inputindex sighashtype : Z) (hex : string) : list event :=
  [ Printf ("script: " ++ scripthex ++ nl);
    Printf ("script-type: " ++ btc_tx_out_type_to_str L type ++ nl);
    Printf ("inputindex: " ++ show_int inputindex ++ nl);
    Printf ("sighashtype: " ++ show_int sighashtype ++ nl);
    Printf ("hash: " ++ hex ++ nl) ].

(** [if (sign) { ... }] with the statements after it. *)
Definition sign_and_print (tx : btc_tx L) (script : bytes) (amount : Z)
  (key : btc_key L) (inputindex sighashtype : Z) : run :=
  let '(res, sigcompact, sigder_plus_hashtype, tx') :=
    btc_tx_sign_input L tx script amount key inputindex sighashtype in
  let sign_error :=
    if is_sign_ok L res then []
    else [Printf ("!!!Sign error:" ++ btc_tx_sign_result_to_str L res ++ nl)] in
  let sigcompacthex := utils_bin_to_hex L sigcompact in
  let sigderhex := utils_bin_to_hex L sigder_plus_hashtype in
  let signed_tx_hex := utils_bin_to_hex L (btc_tx_serialize L tx') in
  ([TxSignInput tx script amount key inputindex sighashtype; ScriptFree]
   ++ sign_error
   ++ [ Printf (nl ++ "Signature created:" ++ nl);
        Printf ("signature compact: " ++ sigcompacthex ++ nl);
        Printf ("signature DER (+hashtype): " ++ sigderhex ++ nl);
        Printf ("signed TX: " ++ signed_tx_hex ++ nl);
        SignedTxFree; TxFree; EccStop ],
   Exit 0).

(** From [// sign] on: the key is decoded; a key that does not decode ends
    the command when it is longer than 50 characters. *)
Definition evaluate_key (chain : chainparams) (pkey : option string)
  (tx : btc_tx L) (script : bytes) (amount inputindex sighashtype : Z) : run :=
  after [PrivkeyDecodeWif pkey chain]
    match btc_privkey_decode_wif L pkey chain with
    | Some key => sign_and_print tx script amount key inputindex sighashtype
    | None =>
        match pkey with
        | None => ([], Undefined)     (* [strlen] of a null pointer *)
        | Some pk =>
            if string_len pk >? 50 then
              after [TxFree; ScriptFree]
                (showError ("Invalid wif privkey" ++ nl))
            else
              ([Printf ("No private key provided, signing will not happen"
                        ++ nl);
                TxFree; EccStop], Exit 0)
        end
    end.

(** The branch [strcmp(cmd, "sign") == 0] of [main] with what follows it. *)
Definition sign (chain : chainparams) (txhex scripthex pkey : option string)
  (inputindex sighashtype amount : Z) : run :=
  match txhex, scripthex with
  | Some txhex, Some scripthex =>
      if string_len txhex >? 1024 * 100 then
        showError ("tx too large (max 100kb)" ++ nl)
      else
        let data_bin := utils_hex_to_bin L txhex in
        match btc_tx_deserialize L data_bin with
        | None => after [FreeDataBin; TxFree] (showError "Invalid tx hex")
        | Some tx =>
            after [FreeDataBin]
              (if to_size_t inputindex >=? vin_len L tx then
                 after [TxFree] (showError "Inputindex out of range")
               else
                 let script := utils_hex_to_bin L scripthex in
                 let sighash :=
                   btc_tx_sighash L tx script inputindex sighashtype 0
                     SIGVERSION_BASE in
                 let hex := utils_reverse_hex L (utils_uint8_to_hex L sighash) in
                 let type := btc_script_classify L script in
                 after (TxSighash tx script inputindex sighashtype 0
                          SIGVERSION_BASE
                        :: diagnostics scripthex type inputindex sighashtype hex)
                   (evaluate_key chain pkey tx script amount inputindex
                      sighashtype))
        end
  | _, _ => showError ("Missing tx-hex or script-hex (use -x, -s)" ++ nl)
  end.

End Command.

(** [case 'p'] of the option loop, before any command runs: [pkey = optarg],
    and a key of fewer than 50 characters ends the program with the error
    "Private key must be WIF encoded". *)
Definition privkey_accepted (optarg : string) : bool :=
  negb (string_len optarg <? 50).

Arguments Printf {L}.
Arguments PrivkeyDecodeWif {L}.
Arguments FreeDataBin {L}.
Arguments TxFree {L}.
Arguments ScriptFree {L}.
Arguments SignedTxFree {L}.
Arguments EccStop {L}.
Arguments TxSighash {L}.
Arguments TxSignInput {L}.

End Sign.

(** ** The program around the commands: [main] *)

Module Main.
Import Sign.

(** [strtol] and [strtoll] in base 10 ([long] and [long long] have 64
    bits): white space, an optional sign, the longest run of digits; 0 when
    there is no digit; out-of-range values are clamped. *)
Definition isspace (c : ascii) : bool :=
  let n := nat_of_ascii c in
  Nat.eqb n 32 || (Nat.leb 9 n && Nat.leb n 13).

Fixpoint skip_space (s : chars) : chars :=
  match s with
  | c :: s' => if isspace c then skip_space s' else s
  | [] => []
  end.

Definition LONG_MAX : Z := 2 ^ 63 - 1.
Definition LONG_MIN : Z := - 2 ^ 63.

Definition strtol (nptr : string) : Z :=
  match skip_space (list_ascii_of_string nptr) with
  | "-"%char :: digits => Z.max (- strtoull_acc digits 0) LONG_MIN
  | "+"%char :: digits => Z.min (strtoull_acc digits 0) LONG_MAX
  | digits => Z.min (strtoull_acc digits 0) LONG_MAX
  end.

(** The conversion [(int)] of a 64-bit value: the low 32 bits, signed. *)
Definition to_int (z : Z) : Z := (z + 2 ^ 31) mod 2 ^ 32 - 2 ^ 31.

(** The conversion of an [int] to [uint64_t]. *)
Definition to_uint64 (z : Z) : Z := z mod 2 ^ 64.

(** The variables that the option loop sets. *)
Record options : Type := mk_options {
  pkey : option string;
  pubkey : option string;
  cmd : option string;
  keypath : option string;
  txhex : option string;
  scripthex : option string;
  inputindex : Z;
  sighashtype : Z;
  amount : Z;
  chain : chainparams
}.

Definition initial_options : options :=
  mk_options None None None None None None 0 1 0 chain_main.

(** The arrays that the commands overwrite with zeros. *)
Inductive cleaned : Type :=
| clean_pkey | clean_pubkey | clean_pubkey_hex | clean_address_p2pkh
| clean_address_p2sh_p2wpkh | clean_newprivkey_wif | clean_newprivkey_hex
| clean_masterkey.

(** The library behind the commands other than [sign].  Results that the
    library writes to caller-supplied arrays are returned as strings. *)
Record toollib : Type := {
  sign_lib : libbtc;
  PACKAGE_NAME : string;
  PACKAGE_VERSION : string;
  pubkey_from_privatekey : chainparams -> string -> option string;
  (* p2pkh, p2sh-p2wpkh and p2wpkh address *)
  addresses_from_pubkey :
    chainparams -> string -> option (string * string * string);
  (* the key drawn by this run, in WIF and in hex *)
  gen_privatekey : chainparams -> string * string;
  hd_gen_master : chainparams -> string;
  (* it prints the node itself *)
  hd_print_node : chainparams -> string -> bool;
  hd_derive : chainparams -> chars -> buffer -> option chars;
  btc_ecc_compact_to_der_normalized : bytes -> bytes;
  btc_hdnode : Type;
  btc_hdnode_deserialize : option string -> chainparams -> option btc_hdnode;
  btc_hdnode_serialize_private : btc_hdnode -> chainparams -> string;
  btc_hdnode_serialize_public : btc_hdnode -> chainparams -> string
}.

Section Program.

Variable T : toollib.

Inductive event : Type :=
| EccStart : event
| EccStop : event
| Printf : string -> event
| HdPrintNode : string -> event       (* [hd_print_node] on the key *)
| Memset : cleaned -> event           (* [memset(x, 0, strlen(x))] *)
| FromHdDerive : HdDerive.event -> event
| FromSign : Sign.event (sign_lib T) -> event.

Definition run : Type := (list event * outcome)%type.

Definition after (evs : list event) (r : run) : run := (evs ++ fst r, snd r).

Definition showError (er : string) : run :=
  ([Printf ("Error: " ++ er ++ nl); EccStop], Exit 1).

Definition print_version : list event :=
  [Printf ("Version: " ++ PACKAGE_NAME T ++ " " ++ PACKAGE_VERSION T ++ nl)].

Definition print_usage : list event :=
  print_version ++
  [ Printf ("Usage: bitcointool (-m|-keypath <bip_keypath>) (-k|-pubkey <publickey>) (-p|-privkey <privatekey>) (-t[--testnet]) (-r[--regtest]) -c <command>" ++ nl);
    Printf ("Available commands: pubfrompriv (requires -p WIF), addrfrompub (requires -k HEX), genkey, crack, hdgenmaster, hdprintkey (requires -p), hdderive (requires -m and -p) " ++ nl);
    Printf (nl ++ "Examples: " ++ nl);
    Printf ("Generate a testnet privatekey in WIF/HEX format:" ++ nl);
    Printf ("> bitcointool -c genkey --testnet" ++ nl ++ nl);
    Printf ("> bitcointool -c pubfrompriv -p KzLzeMteBxy8aPPDCeroWdkYPctafGapqBAmWQwdvCkgKniH9zw6" ++ nl ++ nl) ].

(** One result of [getopt_long_only]: the option character and [optarg],
    which is null for an option without argument. *)
Definition getopt_result : Type := (ascii * option string)%type.

(** The body of the [switch] for the option [opt]: the variables after it,
    or the run with which the program ends there. *)
Definition option_case (opt : ascii) (optarg : option string) (o : options)
  : options + run :=
  let with_number (set : Z -> options) :=
    match optarg with
    | None => inr ([], Undefined)           (* [strtol] of a null pointer *)
    | Some a => inl (set (to_int (strtol a)))
    end in
  if Ascii.eqb opt "p" then
    match optarg with
    | None => inr ([], Undefined)           (* [strlen] of a null pointer *)
    | Some a =>
        if string_len a <? 50
        then inr (showError "Private key must be WIF encoded")
        else inl (mk_options optarg (pubkey o) (cmd o) (keypath o) (txhex o)
                    (scripthex o) (inputindex o) (sighashtype o) (amount o)
                    (chain o))
    end
  else if Ascii.eqb opt "c" then
    inl (mk_options (pkey o) (pubkey o) optarg (keypath o) (txhex o)
           (scripthex o) (inputindex o) (sighashtype o) (amount o) (chain o))
  else if Ascii.eqb opt "m" then
    inl (mk_options (pkey o) (pubkey o) (cmd o) optarg (txhex o)
           (scripthex o) (inputindex o) (sighashtype o) (amount o) (chain o))
  else if Ascii.eqb opt "k" then
    inl (mk_options (pkey o) optarg (cmd o) (keypath o) (txhex o)
           (scripthex o) (inputindex o) (sighashtype o) (amount o) (chain o))
  else if Ascii.eqb opt "t" then
    inl (mk_options (pkey o) (pubkey o) (cmd o) (keypath o) (txhex o)
           (scripthex o) (inputindex o) (sighashtype o) (amount o) chain_test)
  else if Ascii.eqb opt "r" then
    inl (mk_options (pkey o) (pubkey o) (cmd o) (keypath o) (txhex o)
           (scripthex o) (inputindex o) (sighashtype o) (amount o)
           chain_regtest)
  else if Ascii.eqb opt "v" then
    inr (print_version, Exit 0)             (* [exit(EXIT_SUCCESS)] *)
  else if Ascii.eqb opt "x" then
    inl (mk_options (pkey o) (pubkey o) (cmd o) (keypath o) optarg
           (scripthex o) (inputindex o) (sighashtype o) (amount o) (chain o))
  else if Ascii.eqb opt "s" then
    inl (mk_options (pkey o) (pubkey o) (cmd o) (keypath o) (txhex o)
           optarg (inputindex o) (sighashtype o) (amount o) (chain o))
  else if Ascii.eqb opt "i" then
    with_number (fun n =>
      mk_options (pkey o) (pubkey o) (cmd o) (keypath o) (txhex o)
        (scripthex o) n (sighashtype o) (amount o) (chain o))
  else if Ascii.eqb opt "h" then
    with_number (fun n =>
      mk_options (pkey o) (pubkey o) (cmd o) (keypath o) (txhex o)
        (scripthex o) (inputindex o) n (amount o) (chain o))
  else if Ascii.eqb opt "a" then
    with_number (fun n =>
      mk_options (pkey o) (pubkey o) (cmd o) (keypath o) (txhex o)
        (scripthex o) (inputindex o) (sighashtype o) (to_uint64 n) (chain o))
  else inr (print_usage, Exit 1).           (* [exit(EXIT_FAILURE)] *)

(** The loop [while ((opt = getopt_long_only(...)) != -1)] over the results
    that [getopt_long_only] returns. *)
Fixpoint get_arguments (args : list getopt_result) (o : options)
  : options + run :=
  match args with
  | [] => inl o
  | (opt, optarg) :: args' =>
      match option_case opt optarg o with
      | inl o' => get_arguments args' o'
      | inr r => inr r
      end
  end.

Definition pkey_error : string := "Missing extended key (use -p)".

(** How a command leaves the chain of [strcmp] tests: by a [return] of its
    own, or by reaching the statements after the chain. *)
Inductive ending : Type :=
| Returns : outcome -> ending
| Falls : ending.

Definition returned (r : run) : option (list event * ending) :=
  Some (fst r, Returns (snd r)).

Definition finished (evs : list event) : option (list event * ending) :=
  Some (evs, Falls).

(** The chain of [strcmp(cmd, ...)] tests, up to the statement before the
    final [btc_ecc_stop()].  [None] stands for the command [crack], whose
    loop is not modelled. *)
Definition command (o : options) (c : string)
  : option (list event * ending) :=
  if String.eqb c "pubfrompriv" then
    match pkey o with
    | None => returned (showError pkey_error)
    | Some pk =>
        match pubkey_from_privatekey T (chain o) pk with
        | None => returned (showError "Operation failed")
        | Some pubkey_hex =>
            match addresses_from_pubkey T (chain o) pubkey_hex with
            | None =>
                (* the result is not tested: the address arrays are printed
                   as they are *)
                returned ([Memset clean_pkey;
                           Printf ("pubkey: " ++ pubkey_hex ++ nl)],
                          Undefined)
            | Some (address_p2pkh, address_p2sh_p2wpkh, _) =>
                finished
                  [ Memset clean_pkey;
                    Printf ("pubkey: " ++ pubkey_hex ++ nl);
                    Printf ("p2pkh address: " ++ address_p2pkh ++ nl);
                    Printf ("p2sh-p2wpkh address: " ++ address_p2sh_p2wpkh
                            ++ nl);
                    Memset clean_pubkey_hex; Memset clean_address_p2pkh;
                    Memset clean_address_p2sh_p2wpkh ]
            end
        end
    end
  else if String.eqb c "addrfrompub" || String.eqb c "p2pkhaddrfrompub" then
    match pubkey o with
    | None => returned (showError "Missing public key (use -k)")
    | Some pub =>
        match addresses_from_pubkey T (chain o) pub with
        | None => returned (showError "Operation failed, invalid pubkey")
        | Some (address_p2pkh, address_p2sh_p2wpkh, address_p2wpkh) =>
            finished
              [ Printf ("p2pkh address: " ++ address_p2pkh ++ nl);
                Printf ("p2sh-p2wpkh address: " ++ address_p2sh_p2wpkh ++ nl);
                Printf ("p2wpkh (bc1 / bech32) address: " ++ address_p2wpkh
                        ++ nl);
                Memset clean_pubkey; Memset clean_address_p2pkh;
                Memset clean_address_p2sh_p2wpkh ]
        end
    end
  else if String.eqb c "genkey" then
    let (newprivkey_wif, newprivkey_hex) := gen_privatekey T (chain o) in
    finished
      [ Printf ("privatekey WIF: " ++ newprivkey_wif ++ nl);
        Printf ("privatekey HEX: " ++ newprivkey_hex ++ nl);
        Memset clean_newprivkey_wif; Memset clean_newprivkey_hex ]
  else if String.eqb c "crack" then None
  else if String.eqb c "hdgenmaster" then
    finished
      [ Printf ("masterkey: " ++ hd_gen_master T (chain o) ++ nl);
        Memset clean_masterkey ]
  else if String.eqb c "hdprintkey" then
    match pkey o with
    | None => returned (showError pkey_error)
    | Some pk =>
        if hd_print_node T (chain o) pk then finished [HdPrintNode pk]
        else
          returned
            (after [HdPrintNode pk]
               (showError ("Failed. Probably invalid extended key." ++ nl)))
    end
  else if String.eqb c "hdderive" then
    let (evs, rc) :=
      HdDerive.hdderive (hd_derive T (chain o))
        (option_map list_ascii_of_string (pkey o))
        (option_map list_ascii_of_string (keypath o)) in
    returned (map FromHdDerive evs, Exit rc)
  else if String.eqb c "sign" then
    let (evs, out) :=
      sign (sign_lib T) (chain o) (txhex o) (scripthex o) (pkey o)
        (inputindex o) (sighashtype o) (amount o) in
    returned (map FromSign evs, out)
  else if String.eqb c "comp2der" then
    match scripthex o with
    | None =>
        returned (showError ("Missing signature or invalid length (use hex, 128 chars == 64 bytes)" ++ nl))
    | Some sh =>
        if negb (string_len sh =? 128) then
          returned (showError ("Missing signature or invalid length (use hex, 128 chars == 64 bytes)" ++ nl))
        else
          let sig_comp := utils_hex_to_bin (sign_lib T) sh in
          let sigder := btc_ecc_compact_to_der_normalized T sig_comp in
          finished
            [ Printf (sh ++ nl);
              Printf ("DER: " ++ utils_bin_to_hex (sign_lib T) sigder ++ nl) ]
    end
  else if String.eqb c "bip32maintotest" then
    match btc_hdnode_deserialize T (pkey o) (chain o) with
    | None => returned ([], Exit 0)         (* [return false;] *)
    | Some node =>
        finished
          [ Printf ("xpriv: "
                    ++ btc_hdnode_serialize_private T node chain_test ++ nl);
            Printf ("xpub: "
                    ++ btc_hdnode_serialize_public T node chain_test ++ nl) ]
    end
  else finished [].

(** [main] from the option loop on.  [None]: the command is [crack]. *)
Definition main (args : list getopt_result) : option run :=
  match get_arguments args initial_options with
  | inr r => Some r
  | inl o =>
      match cmd o with
      | None => Some (print_usage, Exit 1)  (* no command was provided *)
      | Some c =>
          match command o c with
          | None => None
          | Some (evs, Returns out) => Some (EccStart :: evs, out)
          | Some (evs, Falls) => Some (EccStart :: evs ++ [EccStop], Exit 0)
          end
      end
  end.

End Program.

Arguments EccStart {T}.
Arguments EccStop {T}.
Arguments Printf {T}.
Arguments HdPrintNode {T}.
Arguments Memset {T}.
Arguments FromHdDerive {T}.
Arguments FromSign {T}.

End Main.

(** ** Vocabulary of the statements *)

Definition all_digits (s : chars) : bool := forallb is_digit s.

(** The number a decimal numeral denotes; the empty numeral denotes 0. *)
Definition decimal (s : chars) : Z :=
  fold_left (fun a c => 10 * a + digit_val c) s 0.

(** [s] is the decimal rendering of [n] without sign, padding or leading
    zeros. *)
Definition minimal_decimal (n : Z) (s : chars) : Prop :=
  all_digits s = true /\ s <> [] /\ decimal s = n /\
  (hd NUL s = "0"%char -> s = ["0"%char]).

(** *** Vocabulary for the expander *)

Module HdDeriveSpec.
Import HdDerive.

(** No character of [s] opens a marker. *)
Definition no_open (s : chars) : bool := forallb (fun c => negb (is_open c)) s.

(** The characters of [l] leave the state [st] as it is. *)
Definition stutters (kp : chars) (st : scan_state) (l : chars) : Prop :=
  forall c j, In c l -> scan_body kp j c st = Continue st.

(** [pre], an opening character, the numeral [ds], a dash, the numeral
    [dt], a closing character, [suf]. *)
Definition marker (pre : chars) (o : ascii) (ds dt : chars) (cl : ascii)
  (suf : chars) : chars :=
  pre ++ o :: ds ++ "-"%char :: dt ++ cl :: suf.

(** The first opening character of the expression opens the marker, both
    numerals are runs of at most eight digits, and a closing character ends
    the second one. *)
Definition well_formed (pre : chars) (o : ascii) (ds dt : chars) (cl : ascii)
  : bool :=
  no_open pre && is_open o && all_digits ds && all_digits dt && is_close cl
  && (length ds <=? 8)%nat && (length dt <=? 8)%nat.

(** The closing character lies at an index the scan still visits. *)
Definition within_cap (pre ds dt : chars) : bool :=
  strlen pre + strlen ds + strlen dt + 2 <=? maxlen.

(** An array of [total] bytes of which only the first ones, [s], were
    written. *)
Definition path_buffer (total : nat) (s : chars) : buffer :=
  map Byte s ++ repeat Undef (total - length s).

(** The state inside the first numeral, which starts at index [p]. *)
Definition in_from (p : Z) : scan_state := mk_scan p (-1) (-1) None None.

(** The state inside the second numeral, which starts at index [q]. *)
Definition in_to (p q : Z) (f : Z) : scan_state :=
  mk_scan p q (-1) (Some f) None.

(** The arguments of the calls of [hd_derive] in a trace, in order. *)
Fixpoint derive_calls (evs : list event) : list buffer :=
  match evs with
  | [] => []
  | HdDerive path :: evs' => path :: derive_calls evs'
  | _ :: evs' => derive_calls evs'
  end.

(** [phase consumed st]: what the scan has read, [consumed], when it is in
    state [st] and has not stopped. *)
Inductive phase (consumed : chars) : scan_state -> Prop :=
| ph_outside :
    no_open consumed = true -> phase consumed scan_init
| ph_from pre o ds :
    consumed = pre ++ o :: ds ->
    no_open pre = true -> is_open o = true -> all_digits ds = true ->
    phase consumed (in_from (strlen pre + 1))
| ph_to pre o ds dt :
    consumed = pre ++ o :: ds ++ "-"%char :: dt ->
    no_open pre = true -> is_open o = true -> all_digits ds = true ->
    all_digits dt = true -> (length ds <= 8)%nat ->
    phase consumed
      (in_to (strlen pre + 1) (strlen pre + strlen ds + 2) (decimal ds)).

(** The final state of a scan that recognised the marker of
    [marker pre o ds dt cl suf]. *)
Definition found (kp : chars) (st : scan_state) : Prop :=
  exists pre o ds dt cl suf,
    kp = marker pre o ds dt cl suf /\
    well_formed pre o ds dt cl = true /\ within_cap pre ds dt = true /\
    st = mk_scan (strlen pre + 1) (strlen pre + strlen ds + 2)
           (strlen pre + strlen ds + strlen dt + 3)
           (Some (decimal ds)) (Some (decimal dt)).

(** The shapes of an expression whose marker is missing, broken or
    descending.  [pre] holds no opening character and [o] is one. *)
Inductive malformed : chars -> Prop :=
| no_opening kp :
    no_open kp = true -> malformed kp
| from_non_digit pre o ds c rest :
    (* neither a digit nor the dash follows the digits of the first numeral *)
    no_open pre = true -> is_open o = true -> all_digits ds = true ->
    is_digit c = false -> c <> "-"%char ->
    malformed (pre ++ o :: ds ++ c :: rest)
| from_unterminated pre o ds :
    (* the expression ends inside the first numeral *)
    no_open pre = true -> is_open o = true -> all_digits ds = true ->
    malformed (pre ++ o :: ds)
| from_too_long pre o ds rest :
    no_open pre = true -> is_open o = true -> all_digits ds = true ->
    (8 < length ds)%nat ->
    malformed (pre ++ o :: ds ++ "-"%char :: rest)
| to_non_digit pre o ds dt c rest :
    (* neither a digit nor a closing character follows the second numeral *)
    no_open pre = true -> is_open o = true -> all_digits ds = true ->
    all_digits dt = true -> is_digit c = false -> is_close c = false ->
    malformed (pre ++ o :: ds ++ "-"%char :: dt ++ c :: rest)
| to_unterminated pre o ds dt :
    (* the expression ends before a closing character *)
    no_open pre = true -> is_open o = true -> all_digits ds = true ->
    all_digits dt = true ->
    malformed (pre ++ o :: ds ++ "-"%char :: dt)
| to_too_long pre o ds dt cl suf :
    no_open pre = true -> is_open o = true -> all_digits ds = true ->
    all_digits dt = true -> is_close cl = true -> (8 < length dt)%nat ->
    malformed (marker pre o ds dt cl suf)
| descending pre o ds dt cl suf :
    well_formed pre o ds dt cl = true -> decimal dt < decimal ds ->
    malformed (marker pre o ds dt cl suf).

End HdDeriveSpec.

(** *** Vocabulary for the sign command *)

Module SignSpec.
Import Sign.

(** The steps before the hash succeed: the transaction text is short enough
    and deserialises to [tx], and the input index passes the bound check. *)
Definition parsed (L : libbtc) (txhex : string) (tx : btc_tx L)
  (inputindex : Z) : Prop :=
  string_len txhex <= 1024 * 100 /\
  btc_tx_deserialize L (utils_hex_to_bin L txhex) = Some tx /\
  to_size_t inputindex < vin_len L tx.

(** The amount arguments of the calls of the hash primitive, in order. *)
Fixpoint sighash_amounts {L : libbtc} (evs : list (event L)) : list Z :=
  match evs with
  | [] => []
  | TxSighash _ _ _ _ amount _ :: evs' => amount :: sighash_amounts evs'
  | _ :: evs' => sighash_amounts evs'
  end.

(** The amount arguments of the calls of the signing primitive. *)
Fixpoint sign_amounts {L : libbtc} (evs : list (event L)) : list Z :=
  match evs with
  | [] => []
  | TxSignInput _ _ amount _ _ _ :: evs' => amount :: sign_amounts evs'
  | _ :: evs' => sign_amounts evs'
  end.

(** Events that evaluate the key or use it. *)
Definition is_key_event {L : libbtc} (e : event L) : bool :=
  match e with
  | PrivkeyDecodeWif _ _ | TxSignInput _ _ _ _ _ _ => true
  | _ => false
  end.

(** Calls of the hash or the signing primitive, and printed lines other
    than an error message. *)
Definition is_hash_or_output {L : libbtc} (e : event L) : bool :=
  match e with
  | TxSighash _ _ _ _ _ _ | TxSignInput _ _ _ _ _ _ => true
  | Printf line => negb (String.prefix "Error: " line)
  | _ => false
  end.

(** A library to run the command on concrete requests: every transaction
    text is a transaction with two inputs, a key decodes when it starts with
    [K], and signing reports a failure. *)
Definition sample_lib : libbtc := {|
  btc_tx := nat;
  btc_key := string;
  btc_tx_out_type := unit;
  btc_tx_sign_result := bool;
  utils_hex_to_bin := fun _ => [];
  utils_bin_to_hex := fun _ => "00"%string;
  utils_uint8_to_hex := fun _ => "00"%string;
  utils_reverse_hex := fun h => h;
  btc_tx_deserialize := fun _ => Some 2%nat;
  vin_len := Z.of_nat;
  btc_tx_sighash := fun _ _ _ _ _ _ => [];
  btc_script_classify := fun _ => tt;
  btc_tx_out_type_to_str := fun _ => "TX_PUBKEYHASH"%string;
  btc_privkey_decode_wif :=
    fun k _ => match k with
               | Some s => if String.prefix "K" s then Some s else None
               | None => None
               end;
  btc_tx_sign_input := fun tx _ _ _ _ _ => (false, [], [], tx);
  is_sign_ok := fun res => res;
  btc_tx_sign_result_to_str := fun _ => "BTC_SIGN_UNKNOWN"%string;
  btc_tx_serialize := fun _ => []
|}.

Definition sample_key : string :=
  "KzLzeMteBxy8aPPDCeroWdkYPctafGapqBAmWQwdvCkgKniH9zw6".

(** 52 characters that do not decode. *)
Definition sample_bad_key : string :=
  "xzLzeMteBxy8aPPDCeroWdkYPctafGapqBAmWQwdvCkgKniH9zw6".

(** 50 characters that do not decode. *)
Definition sample_short_key : string :=
  "xzLzeMteBxy8aPPDCeroWdkYPctafGapqBAmWQwdvCkgKniH9z".

(** The events of the hash step: the transaction text is released, the hash
    is computed, and the five diagnostic lines are printed. *)
Definition hash_step (L : libbtc) (scripthex : string) (tx : btc_tx L)
  (inputindex sighashtype : Z) : list (event L) :=
  let script := utils_hex_to_bin L scripthex in
  [ FreeDataBin;
    TxSighash tx script inputindex sighashtype 0 SIGVERSION_BASE;
    Printf ("script: " ++ scripthex ++ nl);
    Printf ("script-type: "
            ++ btc_tx_out_type_to_str L (btc_script_classify L script) ++ nl);
    Printf ("inputindex: " ++ show_int inputindex ++ nl);
    Printf ("sighashtype: " ++ show_int sighashtype ++ nl);
    Printf ("hash: "
            ++ utils_reverse_hex L
                 (utils_uint8_to_hex L
                    (btc_tx_sighash L tx script inputindex sighashtype 0
                       SIGVERSION_BASE))
            ++ nl) ].

End SignSpec.

(** *** Vocabulary for the hdderive command *)

Module HdDeriveCommandSpec.
Import HdDerive.

(** The keys handed to [hd_print_node] in a trace, in order. *)
Fixpoint printed_nodes (evs : list event) : list chars :=
  match evs with
  | [] => []
  | HdPrintNode key :: evs' => key :: printed_nodes evs'
  | _ :: evs' => printed_nodes evs'
  end.

Section Reference.

Variable hd_derive : chars -> buffer -> option chars.

(** Derivation from a list of paths, one after the other: each derived key
    is printed, and the first path that fails ends the command with the
    error and status 1. *)
Fixpoint derive_each (pkey : chars) (paths : list buffer) : list event * Z :=
  match paths with
  | [] => ([EccStop], 0)
  | path :: paths' =>
      match hd_derive pkey path with
      | None =>
          (HdDerive path
           :: fst (showError ("Deriving child key failed" ++ nl)), 1)
      | Some key =>
          (HdDerive path :: HdPrintNode key
           :: fst (derive_each pkey paths'),
           snd (derive_each pkey paths'))
      end
  end.

End Reference.


(** A derivation to run the command with: it accepts proper C strings
    only and returns the path it was given. *)
Definition derive_terminated (pk : chars) (path : buffer) : option chars :=
  read_cstr path.

End HdDeriveCommandSpec.

(** *** Vocabulary for the traces of the sign command *)

Module SignTraceSpec.
Import Sign.

Definition is_ecc_stop {L : libbtc} (e : event L) : bool :=
  match e with EccStop => true | _ => false end.

Definition is_tx_free {L : libbtc} (e : event L) : bool :=
  match e with TxFree => true | _ => false end.

Definition is_script_free {L : libbtc} (e : event L) : bool :=
  match e with ScriptFree => true | _ => false end.

Definition is_free_data_bin {L : libbtc} (e : event L) : bool :=
  match e with FreeDataBin => true | _ => false end.

(** A [printf] call whose text starts with [Error: ].  The whole text of
    the call is looked at, not the lines it may hold. *)
Definition is_error_call {L : libbtc} (e : event L) : bool :=
  match e with
  | Printf line => String.prefix "Error: " line
  | _ => false
  end.

(** How often an event of the kind [p] occurs. *)
Definition count {L : libbtc} (p : event L -> bool) (evs : list (event L))
  : nat :=
  length (filter p evs).

(** [btc_tx_new] and [btc_malloc] are reached: both texts are given and the
    transaction text has at most 102400 characters. *)
Definition allocates (txhex scripthex : option string) : bool :=
  match txhex, scripthex with
  | Some t, Some _ => string_len t <=? 1024 * 100
  | _, _ => false
  end.

Definition no_key_notice : string :=
  "No private key provided, signing will not happen" ++ nl.

End SignTraceSpec.

(** *** Vocabulary for the runs of [main] *)

Module MainSpec.
Import Sign Main.

(** The ECC context is stopped, by [main] itself or inside a command. *)
Definition stops_ecc {T : toollib} (e : event T) : bool :=
  match e with
  | EccStop => true
  | FromHdDerive HdDerive.EccStop => true
  | FromSign Sign.EccStop => true
  | _ => false
  end.

Definition starts_ecc {T : toollib} (e : event T) : bool :=
  match e with EccStart => true | _ => false end.

(** The texts of the [printf] calls of the tool itself, in order, one
    text for each call, not split into lines. *)
Fixpoint printf_texts {T : toollib} (evs : list (event T)) : list string :=
  match evs with
  | [] => []
  | Printf line :: evs' => line :: printf_texts evs'
  | FromHdDerive (HdDerive.Printf line) :: evs' => line :: printf_texts evs'
  | FromSign (Sign.Printf line) :: evs' => line :: printf_texts evs'
  | _ :: evs' => printf_texts evs'
  end.

(** A trace that stops the ECC context in its last event and nowhere
    else, and does not start it. *)
Definition stops_at_end {T : toollib} (evs : list (event T)) : Prop :=
  exists l e,
    evs = l ++ [e] /\ stops_ecc e = true /\
    filter stops_ecc l = [] /\ filter starts_ecc evs = [].

(** The names that the chain of [strcmp] tests knows. *)
Definition known_commands : list string :=
  [ "pubfrompriv"; "addrfrompub"; "p2pkhaddrfrompub"; "genkey"; "crack";
    "hdgenmaster"; "hdprintkey"; "hdderive"; "sign"; "comp2der";
    "bip32maintotest" ]%string.

(** A library to run [main] with: the sample library of the sign command,
    a derivation that accepts proper C strings, and no key that converts. *)
Definition sample_tool : toollib := {|
  sign_lib := SignSpec.sample_lib;
  PACKAGE_NAME := "libbtc";
  PACKAGE_VERSION := "0.1";
  pubkey_from_privatekey := fun _ _ => None;
  addresses_from_pubkey := fun _ _ => None;
  gen_privatekey := fun _ => (""%string, ""%string);
  hd_gen_master := fun _ => ""%string;
  hd_print_node := fun _ _ => false;
  hd_derive := fun _ => HdDeriveCommandSpec.derive_terminated;
  btc_ecc_compact_to_der_normalized := fun b => b;
  btc_hdnode := unit;
  btc_hdnode_deserialize := fun _ _ => None;
  btc_hdnode_serialize_private := fun _ _ => ""%string;
  btc_hdnode_serialize_public := fun _ _ => ""%string
|}.

End MainSpec.

(** ** Facts on characters and numerals *)

Lemma is_digit_inv (c : ascii) :
  is_digit c = true -> In c digits.
Proof.
  unfold is_digit. intros H.
  apply existsb_exists in H. destruct H as (d & Hin & Heq).
  apply Ascii.eqb_eq in Heq. now subst.
Qed.

Ltac digit_cases H :=
  apply is_digit_inv in H; simpl in H;
  repeat (destruct H as [H | H]; [subst | ]); [.. | contradiction].

Lemma digit_not_dash (c : ascii) :
  is_digit c = true -> Ascii.eqb c "-"%char = false.
Proof. intros H. digit_cases H; reflexivity. Qed.

Lemma digit_strchr (c : ascii) :
  is_digit c = true -> strchr digits c = true.
Proof. intros H. unfold strchr. fold (is_digit c). rewrite H. apply orb_true_r. Qed.

Lemma digit_val_range (c : ascii) :
  is_digit c = true -> 0 <= digit_val c <= 9.
Proof. intros H. digit_cases H; vm_compute; split; discriminate. Qed.

Lemma strtoull_acc_decimal (s : chars) :
  all_digits s = true ->
  forall a, strtoull_acc s a = fold_left (fun a c => 10 * a + digit_val c) s a.
Proof.
  induction s as [| c s IH]; intros Hs a; simpl in *.
  - reflexivity.
  - apply andb_true_iff in Hs. destruct Hs as [Hc Hs].
    rewrite Hc. now apply IH.
Qed.

Lemma decimal_acc_bound (s : chars) :
  all_digits s = true ->
  forall a, 0 <= a ->
  0 <= fold_left (fun a c => 10 * a + digit_val c) s a
    < (a + 1) * 10 ^ Z.of_nat (length s).
Proof.
  induction s as [| c s IH]; intros Hs a Ha.
  - simpl. lia.
  - simpl in Hs. apply andb_true_iff in Hs. destruct Hs as [Hc Hs].
    pose proof (digit_val_range c Hc) as Hd.
    cbn [fold_left length].
    specialize (IH Hs (10 * a + digit_val c) ltac:(lia)).
    rewrite Nat2Z.inj_succ, Z.pow_succ_r by lia.
    assert (0 < 10 ^ Z.of_nat (length s)) by (apply Z.pow_pos_nonneg; lia).
    nia.
Qed.

Lemma strtoull_decimal (s : chars) :
  all_digits s = true -> (length s <= 8)%nat -> strtoull s = decimal s.
Proof.
  intros Hs Hl. unfold strtoull, decimal.
  rewrite strtoull_acc_decimal by assumption.
  pose proof (decimal_acc_bound s Hs 0 ltac:(lia)) as Hb.
  assert (10 ^ Z.of_nat (length s) <= 10 ^ 8)
    by (apply Z.pow_le_mono_r; lia).
  apply Z.min_l. unfold ULLONG_MAX. lia.
Qed.

Lemma decimal_lt (s : chars) :
  all_digits s = true -> (length s <= 8)%nat -> 0 <= decimal s < 10 ^ 8.
Proof.
  intros Hs Hl. unfold decimal.
  pose proof (decimal_acc_bound s Hs 0 ltac:(lia)) as Hb.
  assert (10 ^ Z.of_nat (length s) <= 10 ^ 8)
    by (apply Z.pow_le_mono_r; lia).
  lia.
Qed.

Lemma digit_char_spec (d : Z) :
  0 <= d <= 9 ->
  is_digit (digit_char d) = true /\ digit_val (digit_char d) = d.
Proof.
  intros Hd.
  assert (d = 0 \/ d = 1 \/ d = 2 \/ d = 3 \/ d = 4 \/
          d = 5 \/ d = 6 \/ d = 7 \/ d = 8 \/ d = 9) as Hc by lia.
  repeat (destruct Hc as [-> | Hc]; [now vm_compute |]).
  subst d. now vm_compute.
Qed.

Lemma decimal_snoc (s : chars) (c : ascii) :
  decimal (s ++ [c]) = 10 * decimal s + digit_val c.
Proof. unfold decimal. now rewrite fold_left_app. Qed.

Lemma all_digits_app (s1 s2 : chars) :
  all_digits (s1 ++ s2) = all_digits s1 && all_digits s2.
Proof. apply forallb_app. Qed.

Lemma utoa_spec (f : nat) :
  forall n acc, (0 < f)%nat -> 0 <= n < 10 ^ Z.of_nat f ->
  exists ds, utoa f n acc = ds ++ acc /\ minimal_decimal n ds /\
             (length ds <= f)%nat.
Proof.
  induction f as [| f IH]; intros n acc Hf Hn; [lia |].
  cbn [utoa].
  assert (0 <= n mod 10 <= 9) as Hd by (pose proof (Z.mod_pos_bound n 10); lia).
  destruct (digit_char_spec _ Hd) as [Hdig Hval].
  destruct (Z.eqb_spec (n / 10) 0) as [Hq | Hq].
  - exists [digit_char (n mod 10)]. split; [reflexivity |]. split; [| simpl; lia].
    unfold minimal_decimal. repeat split.
    + simpl. now rewrite Hdig.
    + discriminate.
    + unfold decimal. simpl. rewrite Hval.
      pose proof (Z.div_mod n 10 ltac:(lia)). lia.
    + simpl. now intros ->.
  - rewrite Nat2Z.inj_succ, Z.pow_succ_r in Hn by lia.
    assert (0 < n / 10 < 10 ^ Z.of_nat f) as Hq'.
    { split.
      - pose proof (Z.div_pos n 10 ltac:(lia) ltac:(lia)). lia.
      - apply Z.div_lt_upper_bound; lia. }
    assert (0 < f)%nat as Hf'.
    { destruct f; [simpl in Hq'; lia | lia]. }
    destruct (IH (n / 10) (digit_char (n mod 10) :: acc) Hf' ltac:(lia))
      as (ds & Heq & (Hall & Hne & Hdec & Hhd) & Hlen).
    exists (ds ++ [digit_char (n mod 10)]). split; [| split].
    + rewrite Heq, <- app_assoc. reflexivity.
    + unfold minimal_decimal. repeat split.
      * rewrite all_digits_app, Hall. simpl. now rewrite Hdig.
      * destruct ds; discriminate.
      * rewrite decimal_snoc, Hdec, Hval.
        pose proof (Z.div_mod n 10 ltac:(lia)). lia.
      * intros H0. exfalso.
        destruct ds as [| c ds]; [now apply Hne |].
        simpl in H0, Hhd. specialize (Hhd H0). rewrite Hhd in Hdec.
        change (decimal ["0"%char]) with 0 in Hdec. lia.
    + rewrite length_app. simpl. lia.
Qed.

Lemma decimal_acc_lower (s : chars) :
  all_digits s = true ->
  forall a, 0 <= a ->
  a * 10 ^ Z.of_nat (length s)
    <= fold_left (fun a c => 10 * a + digit_val c) s a.
Proof.
  induction s as [| c s IH]; intros Hs a Ha.
  - simpl. lia.
  - simpl in Hs. apply andb_true_iff in Hs. destruct Hs as [Hc Hs].
    pose proof (digit_val_range c Hc).
    cbn [fold_left length]. rewrite Nat2Z.inj_succ, Z.pow_succ_r by lia.
    specialize (IH Hs (10 * a + digit_val c) ltac:(lia)).
    assert (0 < 10 ^ Z.of_nat (length s)) by (apply Z.pow_pos_nonneg; lia).
    nia.
Qed.

(** A numeral without leading zero is no longer than its value requires. *)
Lemma length_decimal_bound (s : chars) :
  all_digits s = true -> s <> [] -> (hd NUL s = "0"%char -> s = ["0"%char]) ->
  forall k, decimal s < 10 ^ Z.of_nat k -> (0 < k)%nat -> (length s <= k)%nat.
Proof.
  intros Hs Hne Hhd k Hlt Hk.
  destruct s as [| c s]; [now contradiction Hne |].
  simpl in Hs. apply andb_true_iff in Hs. destruct Hs as [Hc Hs].
  destruct (Ascii.eqb_spec c "0"%char) as [-> | Hc0].
  - rewrite (Hhd eq_refl). simpl. lia.
  - assert (1 <= digit_val c).
    { pose proof (digit_val_range c Hc).
      digit_cases Hc; try (vm_compute; discriminate). now contradiction Hc0. }
    unfold decimal in Hlt. cbn [fold_left] in Hlt.
    pose proof (decimal_acc_lower s Hs (10 * 0 + digit_val c) ltac:(lia)) as Hlow.
    assert (0 < 10 ^ Z.of_nat (length s)) by (apply Z.pow_pos_nonneg; lia).
    assert (10 ^ Z.of_nat (length s) < 10 ^ Z.of_nat k) as Hp by nia.
    apply Z.pow_lt_mono_r_iff in Hp; simpl; lia.
Qed.

Lemma sprintf_lld_spec (n : Z) :
  0 <= n < 10 ^ 8 ->
  minimal_decimal n (sprintf_lld n) /\ (length (sprintf_lld n) <= 8)%nat.
Proof.
  intros Hn. unfold sprintf_lld.
  rewrite Z.mod_small by lia.
  destruct (Z.geb_spec n (2 ^ 63)) as [Hbig | _]; [lia |].
  destruct (Z.ltb_spec n 0) as [Hneg | _]; [lia |].
  destruct (utoa_spec 20 n [] ltac:(lia) ltac:(lia))
    as (ds & Heq & Hmin & _).
  rewrite app_nil_r in Heq. rewrite Heq. split; [assumption |].
  destruct Hmin as (Hall & Hne & Hdec & Hhd).
  apply length_decimal_bound; try assumption; [simpl; lia | lia].
Qed.

(** ** Facts on the scan *)

Module HdDeriveFacts.
Import HdDerive HdDeriveSpec.

Lemma digit_not_open (c : ascii) : is_digit c = true -> is_open c = false.
Proof. intros H. digit_cases H; reflexivity. Qed.

Lemma digit_not_close (c : ascii) : is_digit c = true -> is_close c = false.
Proof. intros H. digit_cases H; reflexivity. Qed.

Lemma not_digit_strchr (c : ascii) :
  is_digit c = false -> c <> NUL -> strchr digits c = false.
Proof.
  intros Hd Hc. unfold strchr. fold (is_digit c). rewrite Hd.
  destruct (Ascii.eqb_spec c NUL); [contradiction | reflexivity].
Qed.

Lemma c_string_In (s : chars) (c : ascii) :
  c_string s = true -> In c s -> c <> NUL.
Proof.
  unfold c_string. intros Hs Hin.
  rewrite forallb_forall in Hs. specialize (Hs c Hin).
  destruct (Ascii.eqb_spec c NUL); [discriminate | assumption].
Qed.

(** *** One iteration, by state and character class *)

Lemma body_outside kp i c st :
  posanum st = -1 -> scan_body kp i c st = open_test i c st.
Proof. intros H. unfold scan_body. rewrite H. reflexivity. Qed.

Lemma body_from_digit kp i c st :
  -1 < posanum st -> posbnum st = -1 -> is_digit c = true ->
  scan_body kp i c st = Continue st.
Proof.
  intros Ha Hb Hc. unfold scan_body, open_test.
  rewrite Hb, (proj2 (Z.gtb_lt _ _) Ha). cbn [andb Z.eqb].
  now rewrite (digit_not_dash c Hc), (digit_strchr c Hc), (digit_not_open c Hc).
Qed.

Lemma body_from_dash kp i st :
  -1 < posanum st -> posbnum st = -1 -> 0 <= i - posanum st < 9 ->
  scan_body kp i "-"%char st =
  Continue (mk_scan (posanum st) (i + 1) (end_ st)
              (Some (strtoull (numeral_buf kp (posanum st) (i - posanum st))))
              (to st)).
Proof.
  intros Ha Hb Hn. unfold scan_body, open_test, u32.
  rewrite Hb, (proj2 (Z.gtb_lt _ _) Ha). cbn [andb Z.eqb Ascii.eqb].
  rewrite Z.mod_small by lia.
  destruct (Z.geb_spec (i - posanum st) 9); [lia | reflexivity].
Qed.

Lemma body_from_dash_long kp i st :
  -1 < posanum st -> posbnum st = -1 -> 9 <= i - posanum st < 2 ^ 32 ->
  scan_body kp i "-"%char st = Break st.
Proof.
  intros Ha Hb Hn. unfold scan_body, u32.
  rewrite Hb, (proj2 (Z.gtb_lt _ _) Ha). cbn [andb Z.eqb Ascii.eqb].
  rewrite Z.mod_small by lia.
  destruct (Z.geb_spec (i - posanum st) 9); [reflexivity | lia].
Qed.

Lemma body_from_bad kp i c st :
  -1 < posanum st -> posbnum st = -1 ->
  Ascii.eqb c "-"%char = false -> strchr digits c = false ->
  scan_body kp i c st =
  Break (mk_scan (-1) (posbnum st) (end_ st) (from st) (to st)).
Proof.
  intros Ha Hb Hd Hc. unfold scan_body.
  rewrite Hb, (proj2 (Z.gtb_lt _ _) Ha). cbn [andb Z.eqb].
  now rewrite Hd, Hc.
Qed.

Lemma to_run_guards st :
  -1 < posanum st -> -1 < posbnum st ->
  (posanum st >? -1) && (posbnum st =? -1) = false /\
  (posanum st >? -1) && (posbnum st >? -1) = true.
Proof.
  intros Ha Hb. rewrite (proj2 (Z.gtb_lt _ _) Ha), (proj2 (Z.gtb_lt _ _) Hb).
  destruct (Z.eqb_spec (posbnum st) (-1)); [lia | now split].
Qed.

Lemma body_to_digit kp i c st :
  -1 < posanum st -> -1 < posbnum st -> is_digit c = true ->
  scan_body kp i c st = Continue st.
Proof.
  intros Ha Hb Hc. unfold scan_body, open_test.
  destruct (to_run_guards st Ha Hb) as [-> ->].
  now rewrite (digit_not_close c Hc), (digit_strchr c Hc), (digit_not_open c Hc).
Qed.

Lemma body_to_close kp i c st :
  -1 < posanum st -> -1 < posbnum st -> is_close c = true ->
  0 <= i - posbnum st < 9 ->
  scan_body kp i c st =
  Break (mk_scan (posanum st) (posbnum st) (i + 1) (from st)
           (Some (strtoull (numeral_buf kp (posbnum st) (i - posbnum st))))).
Proof.
  intros Ha Hb Hc Hn. unfold scan_body, u32.
  destruct (to_run_guards st Ha Hb) as [-> ->]. rewrite Hc.
  rewrite Z.mod_small by lia.
  destruct (Z.geb_spec (i - posbnum st) 9); [lia | reflexivity].
Qed.

Lemma body_to_close_long kp i c st :
  -1 < posanum st -> -1 < posbnum st -> is_close c = true ->
  9 <= i - posbnum st < 2 ^ 32 ->
  scan_body kp i c st = Break st.
Proof.
  intros Ha Hb Hc Hn. unfold scan_body, u32.
  destruct (to_run_guards st Ha Hb) as [-> ->]. rewrite Hc.
  rewrite Z.mod_small by lia.
  destruct (Z.geb_spec (i - posbnum st) 9); [reflexivity | lia].
Qed.

Lemma body_to_bad kp i c st :
  -1 < posanum st -> -1 < posbnum st ->
  is_close c = false -> strchr digits c = false ->
  scan_body kp i c st =
  Break (mk_scan (-1) (-1) (end_ st) (from st) (to st)).
Proof.
  intros Ha Hb Hc Hd. unfold scan_body.
  destruct (to_run_guards st Ha Hb) as [-> ->]. now rewrite Hc, Hd.
Qed.

(** *** Runs of characters that leave the state alone *)

Lemma stutters_outside kp st l :
  posanum st = -1 -> no_open l = true -> stutters kp st l.
Proof.
  intros Ha Hl c j Hin. rewrite body_outside by assumption.
  unfold no_open in Hl. rewrite forallb_forall in Hl.
  specialize (Hl c Hin). unfold open_test.
  destruct (is_open c); [discriminate | reflexivity].
Qed.

Lemma stutters_from kp st l :
  -1 < posanum st -> posbnum st = -1 -> all_digits l = true ->
  stutters kp st l.
Proof.
  intros Ha Hb Hl c j Hin. apply body_from_digit; try assumption.
  unfold all_digits in Hl. rewrite forallb_forall in Hl. now apply Hl.
Qed.

Lemma stutters_to kp st l :
  -1 < posanum st -> -1 < posbnum st -> all_digits l = true ->
  stutters kp st l.
Proof.
  intros Ha Hb Hl c j Hin. apply body_to_digit; try assumption.
  unfold all_digits in Hl. rewrite forallb_forall in Hl. now apply Hl.
Qed.

(** Below the cap a stuttering run is walked through. *)
Lemma scan_loop_run kp st l1 :
  stutters kp st l1 ->
  forall l2 i, i + strlen l1 <= maxlen + 1 ->
  scan_loop kp (l1 ++ l2) i st = scan_loop kp l2 (i + strlen l1) st.
Proof.
  unfold strlen.
  induction l1 as [| c l1 IH]; intros Hst l2 i Hi.
  - simpl. now rewrite Z.add_0_r.
  - cbn [app scan_loop length] in *.
    destruct (Z.gtb_spec i maxlen) as [Hcap | _]; [lia |].
    rewrite (Hst c i (or_introl eq_refl)).
    rewrite IH; [f_equal; lia | | lia].
    intros d j Hd. apply Hst. now right.
Qed.

(** In general the scan either stops inside the run, at the cap, or
    reaches its end. *)
Lemma scan_loop_run_or kp st l1 :
  stutters kp st l1 ->
  forall l2 i,
  scan_loop kp (l1 ++ l2) i st = st \/
  scan_loop kp (l1 ++ l2) i st = scan_loop kp l2 (i + strlen l1) st.
Proof.
  unfold strlen.
  induction l1 as [| c l1 IH]; intros Hst l2 i.
  - right. simpl. now rewrite Z.add_0_r.
  - cbn [app scan_loop length].
    destruct (Z.gtb_spec i maxlen) as [Hcap | _]; [now left |].
    rewrite (Hst c i (or_introl eq_refl)).
    destruct (IH (fun d j Hd => Hst d j (or_intror Hd)) l2 (i + 1))
      as [H | H]; [now left | right].
    rewrite H. f_equal. lia.
Qed.

Lemma numeral_buf_app (a b c : chars) (p n : Z) :
  p = strlen a -> n = strlen b -> numeral_buf (a ++ b ++ c) p n = b.
Proof.
  intros -> ->. unfold numeral_buf, strlen. rewrite !Nat2Z.id.
  rewrite skipn_app, Nat.sub_diag, skipn_all. simpl.
  rewrite firstn_app, Nat.sub_diag, firstn_all. simpl. apply app_nil_r.
Qed.

(** *** Expressions with a marker *)

Lemma well_formed_inv pre o ds dt cl :
  well_formed pre o ds dt cl = true ->
  no_open pre = true /\ is_open o = true /\ all_digits ds = true /\
  all_digits dt = true /\ is_close cl = true /\
  (length ds <= 8)%nat /\ (length dt <= 8)%nat.
Proof.
  unfold well_formed. rewrite !andb_true_iff, !Nat.leb_le. tauto.
Qed.

Lemma scan_loop_step kp c rest i st :
  i <= maxlen ->
  scan_loop kp (c :: rest) i st =
  match scan_body kp i c st with
  | Break st' => st'
  | Continue st' => scan_loop kp rest (i + 1) st'
  end.
Proof.
  intros Hi. cbn [scan_loop].
  destruct (Z.gtb_spec i maxlen); [lia | reflexivity].
Qed.

Lemma strlen_app (a b : chars) : strlen (a ++ b) = strlen a + strlen b.
Proof. unfold strlen. rewrite length_app. lia. Qed.

Lemma strlen_cons (c : ascii) (a : chars) : strlen (c :: a) = strlen a + 1.
Proof. unfold strlen. cbn [length]. lia. Qed.

Lemma strlen_nonneg (a : chars) : 0 <= strlen a.
Proof. unfold strlen. lia. Qed.

(** The state in which the scan leaves a well-formed marker below the
    cap. *)
Lemma scan_marker pre o ds dt cl suf :
  well_formed pre o ds dt cl = true -> within_cap pre ds dt = true ->
  scan (marker pre o ds dt cl suf) =
  mk_scan (strlen pre + 1) (strlen pre + strlen ds + 2)
          (strlen pre + strlen ds + strlen dt + 3)
          (Some (decimal ds)) (Some (decimal dt)).
Proof.
  intros Hwf Hcap.
  destruct (well_formed_inv _ _ _ _ _ Hwf)
    as (Hpre & Ho & Hds & Hdt & Hcl & Hlds & Hldt).
  unfold within_cap in Hcap. apply Z.leb_le in Hcap.
  pose proof (strlen_nonneg pre). pose proof (strlen_nonneg ds).
  pose proof (strlen_nonneg dt).
  assert (strlen ds <= 8 /\ strlen dt <= 8) as [Hzs Hzt] by (unfold strlen; lia).
  unfold scan. generalize (eq_refl (marker pre o ds dt cl suf)).
  generalize (marker pre o ds dt cl suf) at 1 3. intros kp Hkp.
  unfold marker.
  rewrite (scan_loop_run kp scan_init pre) by
    (try apply stutters_outside; trivial; lia).
  rewrite scan_loop_step, body_outside by (trivial; lia).
  unfold open_test. rewrite Ho. cbn [posbnum end_ from to scan_init].
  rewrite (scan_loop_run kp _ ds) by
    (try apply stutters_from; trivial; cbn [posanum]; lia).
  rewrite scan_loop_step, body_from_dash by (cbn [posanum]; trivial; lia).
  cbn [posanum posbnum end_ from to].
  rewrite (scan_loop_run kp _ dt) by
    (try apply stutters_to; trivial; cbn [posanum posbnum]; lia).
  rewrite scan_loop_step by lia.
  rewrite (body_to_close kp _ cl) by (cbn [posanum posbnum]; trivial; lia).
  cbn [posanum posbnum end_ from to].
  assert (numeral_buf kp (0 + strlen pre + 1)
            (0 + strlen pre + 1 + strlen ds - (0 + strlen pre + 1)) = ds) as ->.
  { subst kp. unfold marker.
    change (pre ++ o :: ds ++ ?r) with (pre ++ [o] ++ ds ++ r).
    rewrite app_assoc. apply numeral_buf_app.
    - rewrite strlen_app. change (strlen [o]) with 1. lia.
    - lia. }
  assert (numeral_buf kp (0 + strlen pre + 1 + strlen ds + 1)
            (0 + strlen pre + 1 + strlen ds + 1 + strlen dt
             - (0 + strlen pre + 1 + strlen ds + 1)) = dt) as ->.
  { subst kp. unfold marker.
    replace (pre ++ o :: ds ++ "-"%char :: dt ++ cl :: suf)
      with ((pre ++ o :: ds ++ ["-"%char]) ++ dt ++ cl :: suf)
      by (rewrite <- !app_assoc; cbn [app]; rewrite <- !app_assoc; reflexivity).
    apply numeral_buf_app.
    - rewrite !strlen_app, strlen_cons, strlen_app.
      change (strlen ["-"%char]) with 1. lia.
    - lia. }
  rewrite !strtoull_decimal by assumption.
  f_equal; lia.
Qed.

(** *** The expansion loop *)

Lemma skipn_repeat {A : Type} (x : A) (n k : nat) :
  skipn n (repeat x k) = repeat x (k - n).
Proof.
  revert k. induction n as [| n IH]; intros k.
  - now rewrite Nat.sub_0_r.
  - destruct k as [| k]; [reflexivity | apply IH].
Qed.

(** A [memcpy] that continues the written part of a fresh array. *)
Lemma memcpy_fresh (a b : chars) (x : buffer) (k : nat) :
  memcpy (map Byte a ++ repeat Undef k) (length a) (map Byte b ++ x) (length b)
  = map Byte (a ++ b) ++ repeat Undef (k - length b).
Proof.
  unfold memcpy.
  rewrite !firstn_app, skipn_app, !length_map, !Nat.sub_diag.
  replace (length a + length b - length a)%nat with (length b) by lia.
  change (firstn 0 (repeat Undef k)) with (@nil mbyte).
  change (firstn 0 x) with (@nil mbyte).
  rewrite <- (length_map Byte a) at 1. rewrite <- (length_map Byte b) at 1.
  rewrite !firstn_all.
  rewrite skipn_all2 by (rewrite length_map; lia).
  cbn [app]. rewrite skipn_repeat, !app_nil_r, map_app, <- app_assoc.
  reflexivity.
Qed.

Lemma skipn_marker pre o ds dt cl suf :
  skipn (Z.to_nat (strlen pre + strlen ds + strlen dt + 3))
        (marker pre o ds dt cl suf) = suf.
Proof.
  unfold marker.
  replace (pre ++ o :: ds ++ "-"%char :: dt ++ cl :: suf)
    with ((pre ++ o :: ds ++ "-"%char :: dt ++ [cl]) ++ suf)
    by (rewrite <- !app_assoc; cbn [app]; rewrite <- !app_assoc;
        cbn [app]; rewrite <- !app_assoc; reflexivity).
  replace (Z.to_nat (strlen pre + strlen ds + strlen dt + 3))
    with (length (pre ++ o :: ds ++ "-"%char :: dt ++ [cl])).
  - rewrite skipn_app, skipn_all, Nat.sub_diag. reflexivity.
  - unfold strlen. rewrite length_app. cbn [length].
    rewrite length_app. cbn [length]. rewrite length_app. cbn [length]. lia.
Qed.

Lemma length_marker pre o ds dt cl suf :
  length (marker pre o ds dt cl suf)
  = (length pre + length ds + length dt + length suf + 3)%nat.
Proof.
  unfold marker. rewrite length_app. cbn [length].
  rewrite length_app. cbn [length]. rewrite length_app. cbn [length]. lia.
Qed.

(** What one iteration stores in [keypathnew]: the prefix, the index and
    the suffix, and nothing after them. *)
Lemma keypathnew_marker pre o ds dt cl suf f t j :
  let kp := marker pre o ds dt cl suf in
  keypathnew kp
    (mk_scan (strlen pre + 1) (strlen pre + strlen ds + 2)
             (strlen pre + strlen ds + strlen dt + 3) f t) j
  = path_buffer (length kp + 16) (pre ++ sprintf_lld j ++ suf).
Proof.
  intros kp. unfold keypathnew. cbn [posanum end_].
  replace (Z.to_nat (strlen pre + 1 - 1)) with (length pre)
    by (unfold strlen; lia).
  replace (Z.to_nat (strlen kp - (strlen pre + strlen ds + strlen dt + 3)))
    with (length suf)
    by (subst kp; unfold strlen; rewrite length_marker; lia).
  subst kp. rewrite skipn_marker.
  set (total := (length (marker pre o ds dt cl suf) + 16)%nat).
  change (repeat Undef total) with (map Byte [] ++ repeat Undef total).
  change 0%nat with (length (@nil ascii)).
  unfold marker at 1. rewrite map_app, memcpy_fresh. cbn [app].
  rewrite <- (app_nil_r (map Byte (sprintf_lld j))), memcpy_fresh.
  rewrite <- length_app.
  rewrite <- (app_nil_r (map Byte suf)), memcpy_fresh.
  unfold path_buffer. rewrite <- app_assoc. f_equal. f_equal.
  rewrite !length_app. lia.
Qed.

Lemma range_paths_seq kp st t :
  forall n i, i + Z.of_nat n <= t + 1 ->
  range_paths kp st n i t =
  map (fun k => keypathnew kp st (i + Z.of_nat k)) (seq 0 n).
Proof.
  induction n as [| n IH]; intros i Hi.
  - reflexivity.
  - cbn [range_paths seq map].
    destruct (Z.leb_spec i t); [| lia].
    rewrite Z.add_0_r. f_equal.
    rewrite IH by lia. rewrite <- seq_shift, map_map.
    apply map_ext. intros k. f_equal. lia.
Qed.

(** The output of the expander on a well-formed marker below the cap. *)
Lemma expand_marker pre o ds dt cl suf :
  well_formed pre o ds dt cl = true -> within_cap pre ds dt = true ->
  let kp := marker pre o ds dt cl suf in
  expand kp =
  if decimal ds <=? decimal dt then
    map (fun k => path_buffer (length kp + 16)
                    (pre ++ sprintf_lld (decimal ds + Z.of_nat k) ++ suf))
        (seq 0 (Z.to_nat (decimal dt + 1 - decimal ds)))
  else [c_literal kp].
Proof.
  intros Hwf Hcap kp. unfold expand. subst kp.
  rewrite (scan_marker _ _ _ _ _ suf Hwf Hcap).
  unfold range_found. cbn [end_ from to].
  pose proof (strlen_nonneg pre). pose proof (strlen_nonneg ds).
  pose proof (strlen_nonneg dt).
  destruct (Z.gtb_spec (strlen pre + strlen ds + strlen dt + 3) (-1)); [| lia].
  cbn [andb].
  destruct (Z.leb_spec (decimal ds) (decimal dt)); [| reflexivity].
  rewrite range_paths_seq by lia.
  apply map_ext. intros k. apply keypathnew_marker.
Qed.

(** *** Scans that find no marker

    Each lemma walks one phase of the scan and leaves [end] at -1 unless the
    phase is completed below the cap. *)

Lemma no_range_no_end st : end_ st = -1 -> range_found st = false.
Proof. intros H. unfold range_found. now rewrite H. Qed.

Lemma expand_literal kp :
  range_found (scan kp) = false -> expand kp = [c_literal kp].
Proof. intros H. unfold expand. now rewrite H. Qed.

Lemma scan_no_open kp : no_open kp = true -> scan kp = scan_init.
Proof.
  intros H. unfold scan.
  destruct (scan_loop_run_or kp scan_init kp
              (stutters_outside kp scan_init kp eq_refl H) [] 0) as [E | E];
    rewrite app_nil_r in E; exact E.
Qed.

Lemma walk_prefix kp pre o tail :
  no_open pre = true -> is_open o = true ->
  (strlen pre <= maxlen ->
   end_ (scan_loop kp tail (strlen pre + 1) (in_from (strlen pre + 1))) = -1) ->
  end_ (scan_loop kp (pre ++ o :: tail) 0 scan_init) = -1.
Proof.
  intros Hpre Ho Hk.
  destruct (scan_loop_run_or kp scan_init pre
              (stutters_outside kp scan_init pre eq_refl Hpre) (o :: tail) 0)
    as [-> | ->]; [reflexivity |].
  cbn [scan_loop]. rewrite Z.add_0_l.
  destruct (Z.gtb_spec (strlen pre) maxlen); [reflexivity |].
  rewrite body_outside by reflexivity. unfold open_test. rewrite Ho.
  now apply Hk.
Qed.

Lemma walk_from_end kp ds p i :
  all_digits ds = true -> 0 <= p ->
  end_ (scan_loop kp ds i (in_from p)) = -1.
Proof.
  intros Hds Hp.
  destruct (scan_loop_run_or kp (in_from p) ds
              (stutters_from kp (in_from p) ds ltac:(simpl; lia) eq_refl Hds) [] i)
    as [E | E]; rewrite app_nil_r in E; rewrite E; reflexivity.
Qed.

Lemma walk_from_bad kp ds c rest p i :
  all_digits ds = true -> 0 <= p ->
  Ascii.eqb c "-"%char = false -> is_digit c = false -> c <> NUL ->
  end_ (scan_loop kp (ds ++ c :: rest) i (in_from p)) = -1.
Proof.
  intros Hds Hp Hdash Hdig Hnul.
  destruct (scan_loop_run_or kp (in_from p) ds
              (stutters_from kp (in_from p) ds ltac:(simpl; lia) eq_refl Hds)
              (c :: rest) i)
    as [-> | ->]; [reflexivity |].
  cbn [scan_loop].
  destruct (Z.gtb_spec (i + strlen ds) maxlen); [reflexivity |].
  rewrite body_from_bad;
    [reflexivity | simpl; lia | reflexivity | assumption
    | now apply not_digit_strchr].
Qed.

Lemma walk_from_dash kp ds tail p :
  all_digits ds = true -> 0 <= p ->
  (strlen ds <= 8 -> p + strlen ds <= maxlen ->
   end_ (scan_loop kp tail (p + strlen ds + 1)
           (in_to p (p + strlen ds + 1)
              (strtoull (numeral_buf kp p (p + strlen ds - p))))) = -1) ->
  end_ (scan_loop kp (ds ++ "-"%char :: tail) p (in_from p)) = -1.
Proof.
  intros Hds Hp Hk. pose proof (strlen_nonneg ds).
  destruct (scan_loop_run_or kp (in_from p) ds
              (stutters_from kp (in_from p) ds ltac:(simpl; lia) eq_refl Hds)
              ("-"%char :: tail) p)
    as [-> | ->]; [reflexivity |].
  cbn [scan_loop].
  destruct (Z.gtb_spec (p + strlen ds) maxlen); [reflexivity |].
  destruct (Z.le_gt_cases (strlen ds) 8).
  - rewrite body_from_dash by (simpl; trivial; lia).
    apply Hk; assumption.
  - rewrite body_from_dash_long; [reflexivity | simpl; lia | reflexivity |].
    simpl. unfold maxlen in *. lia.
Qed.

Lemma walk_to_end kp dt p q f i :
  all_digits dt = true -> 0 <= p -> 0 <= q ->
  end_ (scan_loop kp dt i (in_to p q f)) = -1.
Proof.
  intros Hdt Hp Hq.
  destruct (scan_loop_run_or kp (in_to p q f) dt
              (stutters_to kp (in_to p q f) dt ltac:(simpl; lia) ltac:(simpl; lia) Hdt) [] i)
    as [E | E]; rewrite app_nil_r in E; rewrite E; reflexivity.
Qed.

Lemma walk_to_bad kp dt c rest p q f i :
  all_digits dt = true -> 0 <= p -> 0 <= q ->
  is_close c = false -> is_digit c = false -> c <> NUL ->
  end_ (scan_loop kp (dt ++ c :: rest) i (in_to p q f)) = -1.
Proof.
  intros Hdt Hp Hq Hcl Hdig Hnul.
  destruct (scan_loop_run_or kp (in_to p q f) dt
              (stutters_to kp (in_to p q f) dt ltac:(simpl; lia) ltac:(simpl; lia) Hdt)
              (c :: rest) i)
    as [-> | ->]; [reflexivity |].
  cbn [scan_loop].
  destruct (Z.gtb_spec (i + strlen dt) maxlen); [reflexivity |].
  rewrite body_to_bad;
    [reflexivity | simpl; lia | simpl; lia | assumption
    | now apply not_digit_strchr].
Qed.

(** The closing character is reached only below the cap and after at most
    eight digits. *)
Lemma walk_to_close kp dt cl rest p q f :
  all_digits dt = true -> 0 <= p -> 0 <= q -> is_close cl = true ->
  end_ (scan_loop kp (dt ++ cl :: rest) q (in_to p q f)) = -1 \/
  (strlen dt <= 8 /\ q + strlen dt <= maxlen).
Proof.
  intros Hdt Hp Hq Hcl. pose proof (strlen_nonneg dt).
  destruct (scan_loop_run_or kp (in_to p q f) dt
              (stutters_to kp (in_to p q f) dt ltac:(simpl; lia) ltac:(simpl; lia) Hdt)
              (cl :: rest) q)
    as [-> | ->]; [now left |].
  cbn [scan_loop].
  destruct (Z.gtb_spec (q + strlen dt) maxlen); [now left |].
  destruct (Z.le_gt_cases (strlen dt) 8); [right; lia | left].
  rewrite body_to_close_long;
    [reflexivity | simpl; lia | simpl; lia | assumption |].
  simpl. unfold maxlen in *. lia.
Qed.

(** *** Every scan that finds a marker has read one *)

Lemma phase_end consumed st : phase consumed st -> end_ st = -1.
Proof. now destruct 1. Qed.

Lemma strchr_digit (c : ascii) :
  strchr digits c = true -> c <> NUL -> is_digit c = true.
Proof.
  unfold strchr. fold (is_digit c). intros H Hc.
  destruct (Ascii.eqb_spec c NUL); [contradiction | exact H].
Qed.

Lemma no_open_snoc (s : chars) (c : ascii) :
  no_open s = true -> is_open c = false -> no_open (s ++ [c]) = true.
Proof.
  intros Hs Hc. unfold no_open in *. rewrite forallb_app, Hs. simpl.
  now rewrite Hc.
Qed.

Lemma all_digits_snoc (s : chars) (c : ascii) :
  all_digits s = true -> is_digit c = true -> all_digits (s ++ [c]) = true.
Proof.
  intros Hs Hc. rewrite all_digits_app, Hs. simpl. now rewrite Hc.
Qed.

Lemma scan_loop_complete kp :
  c_string kp = true ->
  forall rest consumed st,
  kp = consumed ++ rest -> phase consumed st ->
  let st' := scan_loop kp rest (strlen consumed) st in
  end_ st' = -1 \/ found kp st'.
Proof.
  intros Hkp. induction rest as [| c rest IH]; intros consumed st Heq Hph.
  - left. simpl. now apply (phase_end consumed).
  - cbn zeta. cbn [scan_loop].
    destruct (Z.gtb_spec (strlen consumed) maxlen) as [| Hcap];
      [left; now apply (phase_end consumed) |].
    assert (c <> NUL) as Hc.
    { apply (c_string_In kp); [assumption |].
      rewrite Heq. apply in_or_app. right. now left. }
    assert (kp = (consumed ++ [c]) ++ rest) as Heq'
      by (rewrite <- app_assoc; exact Heq).
    assert (strlen (consumed ++ [c]) = strlen consumed + 1) as Hlen
      by (rewrite strlen_app; reflexivity).
    pose proof (strlen_nonneg consumed) as Hnn.
    assert (forall s, phase (consumed ++ [c]) s ->
              end_ (scan_loop kp rest (strlen consumed + 1) s) = -1 \/
              found kp (scan_loop kp rest (strlen consumed + 1) s)) as IH'
      by (intros s Hs; rewrite <- Hlen; exact (IH _ _ Heq' Hs)).
    clear IH.
    destruct Hph as [Hno | pre o ds Hcons Hpre Ho Hds
                     | pre o ds dt Hcons Hpre Ho Hds Hdt Hlds].
    + (* before the first opening character *)
      rewrite body_outside by reflexivity. unfold open_test.
      destruct (is_open c) eqn:Hopen.
      * apply IH'.
        apply (ph_from _ consumed c []);
          [reflexivity | assumption | assumption | reflexivity].
      * apply IH'. apply ph_outside. now apply no_open_snoc.
    + (* in the first numeral *)
      pose proof (strlen_nonneg pre). pose proof (strlen_nonneg ds).
      assert (strlen consumed = strlen pre + 1 + strlen ds) as Hi
        by (rewrite Hcons, strlen_app, strlen_cons; lia).
      destruct (Ascii.eqb_spec c "-"%char) as [-> | Hdash].
      * destruct (Z.le_gt_cases (strlen ds) 8) as [Hle | Hgt].
        -- rewrite body_from_dash by (simpl; trivial; lia).
           cbn [in_from posanum end_ to].
           replace (numeral_buf kp (strlen pre + 1)
                      (strlen consumed - (strlen pre + 1))) with ds.
           2:{ symmetry. rewrite Hi, Heq, Hcons.
               replace ((pre ++ o :: ds) ++ "-"%char :: rest)
                 with ((pre ++ [o]) ++ ds ++ "-"%char :: rest)
                 by (rewrite <- !app_assoc; reflexivity).
               apply numeral_buf_app; [| lia].
               rewrite strlen_app. change (strlen [o]) with 1. lia. }
           rewrite strtoull_decimal by (trivial; unfold strlen in Hle; lia).
           apply IH'.
           replace (strlen consumed + 1) with (strlen pre + strlen ds + 2)
             by lia.
           apply (ph_to _ pre o ds []); trivial;
             [rewrite Hcons, <- app_assoc; reflexivity
             | unfold strlen in Hle; lia].
        -- left. rewrite body_from_dash_long;
             [reflexivity | simpl; lia | reflexivity |].
           simpl. unfold maxlen in *. lia.
      * destruct (strchr digits c) eqn:Hstr.
        -- pose proof (strchr_digit c Hstr Hc) as Hdig.
           rewrite body_from_digit by (simpl; trivial; lia).
           apply IH'.
           apply (ph_from _ pre o (ds ++ [c])); trivial;
             [rewrite Hcons, <- app_assoc; reflexivity
             | now apply all_digits_snoc].
        -- left. rewrite body_from_bad;
             [reflexivity | simpl; lia | reflexivity | | assumption].
           now apply Ascii.eqb_neq.
    + (* in the second numeral *)
      pose proof (strlen_nonneg pre). pose proof (strlen_nonneg ds).
      pose proof (strlen_nonneg dt).
      assert (strlen consumed = strlen pre + strlen ds + 2 + strlen dt) as Hi
        by (rewrite Hcons, strlen_app, strlen_cons, strlen_app, strlen_cons;
            lia).
      destruct (is_close c) eqn:Hclose.
      * destruct (Z.le_gt_cases (strlen dt) 8) as [Hle | Hgt].
        -- right. rewrite (body_to_close kp _ c) by (simpl; trivial; lia).
           cbn [in_to posanum posbnum from].
           exists pre, o, ds, dt, c, rest. repeat split.
           ++ rewrite Heq, Hcons. unfold marker.
              rewrite <- !app_assoc. cbn [app]. rewrite <- !app_assoc.
              reflexivity.
           ++ unfold well_formed.
              rewrite Hpre, Ho, Hds, Hdt, Hclose. cbn [andb].
              apply andb_true_iff. split; apply Nat.leb_le;
                [assumption | unfold strlen in Hle; lia].
           ++ unfold within_cap. apply Z.leb_le. lia.
           ++ replace (numeral_buf kp (strlen pre + strlen ds + 2)
                         (strlen consumed - (strlen pre + strlen ds + 2)))
                with dt.
              2:{ symmetry. rewrite Hi, Heq, Hcons.
                  replace ((pre ++ o :: ds ++ "-"%char :: dt) ++ c :: rest)
                    with ((pre ++ o :: ds ++ ["-"%char]) ++ dt ++ c :: rest)
                    by (rewrite <- !app_assoc; cbn [app];
                        rewrite <- !app_assoc; reflexivity).
                  apply numeral_buf_app; [| lia].
                  rewrite strlen_app, strlen_cons, strlen_app.
                  change (strlen ["-"%char]) with 1. lia. }
              rewrite strtoull_decimal
                by (trivial; unfold strlen in Hle; lia).
              f_equal. lia.
        -- left. rewrite body_to_close_long;
             [reflexivity | simpl; lia | simpl; lia | assumption |].
           simpl. unfold maxlen in *. lia.
      * destruct (strchr digits c) eqn:Hstr.
        -- pose proof (strchr_digit c Hstr Hc) as Hdig.
           rewrite body_to_digit by (simpl; trivial; lia).
           apply IH'.
           apply (ph_to _ pre o ds (dt ++ [c])); trivial;
             [| now apply all_digits_snoc].
           rewrite Hcons, <- !app_assoc. cbn [app].
           rewrite <- !app_assoc. reflexivity.
        -- left. rewrite body_to_bad;
             [reflexivity | simpl; lia | simpl; lia | assumption | assumption].
Qed.

Lemma scan_complete kp :
  c_string kp = true -> end_ (scan kp) = -1 \/ found kp (scan kp).
Proof.
  intros Hkp.
  apply (scan_loop_complete kp Hkp kp [] scan_init eq_refl).
  now apply ph_outside.
Qed.

(** *** Expressions without a usable marker *)

Lemma read_cstr_literal (s : chars) :
  c_string s = true -> read_cstr (c_literal s) = Some s.
Proof.
  unfold c_literal. induction s as [| c s IH]; intros Hs.
  - reflexivity.
  - simpl in Hs. apply andb_true_iff in Hs. destruct Hs as [Hc Hs].
    cbn [map app read_cstr].
    destruct (Ascii.eqb c NUL); [discriminate |].
    now rewrite (IH Hs).
Qed.

(** A marker in place either leaves [end] at -1 or is short enough and
    closed below the cap. *)
Lemma marker_end_cases pre o ds dt cl suf :
  no_open pre = true -> is_open o = true -> all_digits ds = true ->
  all_digits dt = true -> is_close cl = true ->
  end_ (scan (marker pre o ds dt cl suf)) = -1 \/
  (strlen dt <= 8 /\ within_cap pre ds dt = true).
Proof.
  intros Hpre Ho Hds Hdt Hcl.
  pose proof (strlen_nonneg pre). pose proof (strlen_nonneg ds).
  destruct (Z.le_gt_cases (strlen dt) 8) as [Hle | Hgt];
    [destruct (within_cap pre ds dt) eqn:Hcap; [now right |] |];
    left; unfold scan, marker;
    apply walk_prefix; trivial; intros _;
    apply walk_from_dash; trivial; try lia; intros _ _;
    match goal with
    | |- end_ (scan_loop ?kp _ ?q (in_to ?p ?q ?f)) = -1 =>
        destruct (walk_to_close kp dt cl suf p q f Hdt
                    ltac:(lia) ltac:(lia) Hcl) as [E | [E1 E2]]
    end; trivial; try lia.
  unfold within_cap in Hcap. apply Z.leb_gt in Hcap. lia.
Qed.

Lemma malformed_no_range kp :
  c_string kp = true -> malformed kp -> range_found (scan kp) = false.
Proof.
  intros Hc Hm.
  destruct Hm as [kp Hno
                 | pre o ds c rest Hpre Ho Hds Hdig Hdash
                 | pre o ds Hpre Ho Hds
                 | pre o ds rest Hpre Ho Hds Hlen
                 | pre o ds dt c rest Hpre Ho Hds Hdt Hdig Hcl
                 | pre o ds dt Hpre Ho Hds Hdt
                 | pre o ds dt cl suf Hpre Ho Hds Hdt Hcl Hlen
                 | pre o ds dt cl suf Hwf Hdesc].
  - now rewrite scan_no_open.
  - apply no_range_no_end. unfold scan.
    apply walk_prefix; trivial. intros _.
    pose proof (strlen_nonneg pre).
    apply walk_from_bad; trivial; [lia | now apply Ascii.eqb_neq |].
    apply (c_string_In _ c Hc).
    apply in_or_app; right; right. apply in_or_app; right. now left.
  - apply no_range_no_end. unfold scan.
    apply walk_prefix; trivial. intros _.
    pose proof (strlen_nonneg pre). apply walk_from_end; trivial. lia.
  - apply no_range_no_end. unfold scan.
    apply walk_prefix; trivial. intros _.
    pose proof (strlen_nonneg pre).
    apply walk_from_dash; trivial; [lia |]. unfold strlen. lia.
  - apply no_range_no_end. unfold scan.
    apply walk_prefix; trivial. intros _.
    pose proof (strlen_nonneg pre). pose proof (strlen_nonneg ds).
    apply walk_from_dash; trivial; [lia |]. intros _ _.
    apply walk_to_bad; trivial; try lia.
    apply (c_string_In _ c Hc).
    apply in_or_app; right; right. apply in_or_app; right; right.
    apply in_or_app; right. now left.
  - apply no_range_no_end. unfold scan.
    apply walk_prefix; trivial. intros _.
    pose proof (strlen_nonneg pre). pose proof (strlen_nonneg ds).
    apply walk_from_dash; trivial; [lia |]. intros _ _.
    apply walk_to_end; trivial; lia.
  - apply no_range_no_end.
    destruct (marker_end_cases pre o ds dt cl suf) as [E | [E _]]; trivial.
    unfold strlen in E. lia.
  - destruct (well_formed_inv _ _ _ _ _ Hwf)
      as (Hpre & Ho & Hds & Hdt & Hcl & _ & _).
    destruct (marker_end_cases pre o ds dt cl suf) as [E | [_ Hcap]]; trivial.
    + now apply no_range_no_end.
    + rewrite (scan_marker _ _ _ _ _ suf Hwf Hcap).
      unfold range_found. cbn [end_ from to].
      destruct (Z.leb_spec (decimal ds) (decimal dt)); [lia |].
      apply andb_false_r.
Qed.

(** *** The expander inside the command *)

(** The arrays of the expansion loop hold no terminator: a callee that
    reads one as a C string runs into bytes that were never written. *)
Lemma read_cstr_unterminated (s : chars) (k : nat) :
  c_string s = true -> read_cstr (map Byte s ++ repeat Undef k) = None.
Proof.
  induction s as [| c s IH]; intros Hs.
  - destruct k; reflexivity.
  - simpl in Hs. apply andb_true_iff in Hs. destruct Hs as [Hc Hs].
    cbn [map app read_cstr].
    destruct (Ascii.eqb c NUL); [discriminate |].
    now rewrite (IH Hs).
Qed.

Lemma path_buffer_unterminated (total : nat) (s : chars) :
  c_string s = true -> read_cstr (path_buffer total s) = None.
Proof. apply read_cstr_unterminated. Qed.

Section CommandFacts.

Variable hd_derive : chars -> buffer -> option chars.

(** The loop of the command derives from the paths of [range_paths], in
    order, and stops at the first that fails. *)
Lemma derive_range_calls pk kp st t :
  forall n i,
  exists rest,
    range_paths kp st n i t
    = derive_calls (fst (derive_range hd_derive pk kp st n i t)) ++ rest.
Proof.
  induction n as [| n IH]; intros i.
  - exists []. reflexivity.
  - cbn [range_paths derive_range].
    destruct (i <=? t); [| exists []; reflexivity].
    destruct (hd_derive pk (keypathnew kp st i)) as [key |].
    + destruct (IH (i + 1)) as [rest Hrest].
      destruct (derive_range hd_derive pk kp st n (i + 1) t) as [ev rc].
      exists rest. cbn [fst derive_calls app] in *. now rewrite Hrest.
    + eexists. cbn [fst showError derive_calls app]. reflexivity.
Qed.

(** When no derivation fails the command derives from every path of the
    expander and ends with status 0. *)
Lemma derive_range_all pk kp st t :
  (forall path, hd_derive pk path <> None) ->
  forall n i,
  derive_calls (fst (derive_range hd_derive pk kp st n i t))
    = range_paths kp st n i t /\
  snd (derive_range hd_derive pk kp st n i t) = 0.
Proof.
  intros Hok. induction n as [| n IH]; intros i.
  - split; reflexivity.
  - cbn [range_paths derive_range].
    destruct (i <=? t); [| split; reflexivity].
    destruct (hd_derive pk (keypathnew kp st i)) as [key |] eqn:E;
      [| now apply Hok in E].
    destruct (IH (i + 1)) as [Hc Hrc].
    destruct (derive_range hd_derive pk kp st n (i + 1) t) as [ev rc].
    cbn [fst snd derive_calls] in *. now rewrite Hc.
Qed.

Lemma hdderive_expand pk kp :
  (forall path, hd_derive pk path <> None) ->
  derive_calls (fst (hdderive hd_derive (Some pk) (Some kp))) = expand kp /\
  snd (hdderive hd_derive (Some pk) (Some kp)) = 0.
Proof.
  intros Hok. unfold hdderive, expand.
  destruct (range_found (scan kp)).
  - destruct (from (scan kp)) as [f |], (to (scan kp)) as [t |];
      try (split; reflexivity).
    now apply derive_range_all.
  - destruct (hd_derive pk (c_literal kp)) as [key |] eqn:E;
      [split; reflexivity | now apply Hok in E].
Qed.

End CommandFacts.

(** The scenarios of the tool's description. *)
Example expand_two_paths :
  expand (chars_of "m/0'/[2-3]/5")
  = [path_buffer 28 (chars_of "m/0'/2/5"); path_buffer 28 (chars_of "m/0'/3/5")].
Proof. reflexivity. Qed.

Example expand_five_paths :
  map (firstn 8) (expand (chars_of "m/0'/[0-4]/1"))
  = map (fun s => map Byte (chars_of s))
      ["m/0'/0/1"; "m/0'/1/1"; "m/0'/2/1"; "m/0'/3/1"; "m/0'/4/1"]%string.
Proof. reflexivity. Qed.

Example expand_parentheses :
  expand (chars_of "m/(9-10)")
  = [path_buffer 24 (chars_of "m/9"); path_buffer 24 (chars_of "m/10")].
Proof. reflexivity. Qed.

Example expand_no_marker :
  expand (chars_of "m/100h/10h/100/10") = [c_literal (chars_of "m/100h/10h/100/10")].
Proof. reflexivity. Qed.

Example expand_empty_to :
  expand (chars_of "m/[3-]/0") = [c_literal (chars_of "m/[3-]/0")].
Proof. reflexivity. Qed.

(** *** Properties of the expander *)

(** Within the scan's cap: an expression with a well-formed marker whose
    closing character is among the first 1025 characters, numerals of at
    most eight digits and [from <= to] yields [to - from + 1] path arrays, the
    [k]-th beginning with the prefix, then [from + k] as a minimal decimal
    numeral, then the suffix. *)
Theorem expand_range pre o ds dt cl suf :
  well_formed pre o ds dt cl = true ->
  within_cap pre ds dt = true ->
  decimal ds <= decimal dt ->
  let kp := marker pre o ds dt cl suf in
  length (expand kp) = Z.to_nat (decimal dt - decimal ds + 1) /\
  forall k, (k < length (expand kp))%nat ->
    exists idx tail,
      nth k (expand kp) [] = map Byte (pre ++ idx ++ suf) ++ tail /\
      minimal_decimal (decimal ds + Z.of_nat k) idx.
Proof.
  intros Hwf Hcap Hle kp. subst kp.
  rewrite (expand_marker _ _ _ _ _ suf Hwf Hcap).
  destruct (Z.leb_spec (decimal ds) (decimal dt)); [| lia].
  rewrite length_map, length_seq. split; [f_equal; lia |].
  intros k Hk.
  destruct (well_formed_inv _ _ _ _ _ Hwf)
    as (_ & _ & Hds & Hdt & _ & Hlds & Hldt).
  pose proof (decimal_lt ds Hds Hlds). pose proof (decimal_lt dt Hdt Hldt).
  set (f := fun k => path_buffer (length (marker pre o ds dt cl suf) + 16)
                       (pre ++ sprintf_lld (decimal ds + Z.of_nat k) ++ suf)).
  rewrite (nth_indep _ [] (f 0%nat)) by now rewrite length_map, length_seq.
  rewrite map_nth, seq_nth by assumption. cbn [Nat.add]. unfold f, path_buffer.
  eexists. eexists. split; [reflexivity |].
  apply sprintf_lld_spec. lia.
Qed.

Lemma expand_range_witness :
  let pre := chars_of "m/0'/" in
  let suf := chars_of "/5" in
  let kp := marker pre "[" (chars_of "2") (chars_of "3") "]" suf in
  length (expand kp) = 2%nat /\
  forall k, (k < length (expand kp))%nat ->
    exists idx tail,
      nth k (expand kp) [] = map Byte (pre ++ idx ++ suf) ++ tail /\
      minimal_decimal (2 + Z.of_nat k) idx.
Proof.
  apply (expand_range (chars_of "m/0'/") "[" (chars_of "2") (chars_of "3")
           "]" (chars_of "/5")).
  - reflexivity.
  - reflexivity.
  - vm_compute. discriminate.
Defined.

(** Beyond the cap a marker is left alone: [[0-1]] closing at index 1025
    gives one literal path instead of two. *)
Lemma expand_range_beyond_cap :
  let pre := repeat "a"%char 1021 in
  let kp := marker pre "[" (chars_of "0") (chars_of "1") "]" [] in
  well_formed pre "[" (chars_of "0") (chars_of "1") "]" = true /\
  decimal (chars_of "0") <= decimal (chars_of "1") /\
  expand kp = [c_literal kp] /\
  length (expand kp)
    <> Z.to_nat (decimal (chars_of "1") - decimal (chars_of "0") + 1).
Proof.
  vm_compute. repeat split; discriminate.
Qed.

(** C1: the paths of a range are not the strings the loop means to build.
    On [m/0'/[2-3]/5] the two arrays hold [m/0'/2/5] and [m/0'/3/5] in
    their first eight bytes and no terminator after them, so that they do
    not read back as these strings, as the strings themselves would. *)
Theorem range_paths_lack_terminator :
  let kp := chars_of "m/0'/[2-3]/5" in
  let first := chars_of "m/0'/2/5" in
  let second := chars_of "m/0'/3/5" in
  expand kp = [path_buffer 28 first; path_buffer 28 second] /\
  map read_cstr (expand kp) = [None; None] /\
  map read_cstr [c_literal first; c_literal second]
    = [Some first; Some second] /\
  expand kp <> [c_literal first; c_literal second].
Proof.
  vm_compute. repeat split; discriminate.
Qed.

(** C4: an expression without opening character, with a non-digit in a
    numeral, without dash or closing character, with a numeral of more than
    eight digits, or with [from > to] yields one path, the expression itself
    as the C string it is. *)
Theorem malformed_literal kp :
  c_string kp = true -> malformed kp ->
  expand kp = [c_literal kp] /\ read_cstr (c_literal kp) = Some kp.
Proof.
  intros Hc Hm. split.
  - apply expand_literal. now apply malformed_no_range.
  - now apply read_cstr_literal.
Qed.

Lemma malformed_literal_witness :
  let kp := chars_of "m/[3-1]/0" in
  expand kp = [c_literal kp] /\ read_cstr (c_literal kp) = Some kp.
Proof.
  apply (malformed_literal (chars_of "m/[3-1]/0")).
  - reflexivity.
  - apply (descending (chars_of "m/") "[" (chars_of "3") (chars_of "1") "]"
             (chars_of "/0")).
    + reflexivity.
    + vm_compute. reflexivity.
Defined.

(** C8, as the code has it: a marker is recognised only in an expression of
    the form prefix, opening character, digits, dash, digits, closing
    character, suffix, and in every such expression below the cap with
    [from <= to], whichever of [[] and [(] opens it and whichever of []]
    and [)] closes it; the paths are those of the same expression written
    with [[] and []]. *)
Theorem marker_any_brackets kp :
  c_string kp = true ->
  (range_found (scan kp) = true ->
   exists pre o ds dt cl suf,
     kp = marker pre o ds dt cl suf /\
     well_formed pre o ds dt cl = true /\ within_cap pre ds dt = true /\
     decimal ds <= decimal dt) /\
  (forall pre o ds dt cl suf,
     kp = marker pre o ds dt cl suf ->
     well_formed pre o ds dt cl = true -> within_cap pre ds dt = true ->
     decimal ds <= decimal dt ->
     range_found (scan kp) = true /\
     expand kp = expand (marker pre "["%char ds dt "]"%char suf)).
Proof.
  intros Hc. split.
  - intros Hfound.
    destruct (scan_complete kp Hc) as [E | (pre & o & ds & dt & cl & suf & E)].
    + rewrite (no_range_no_end _ E) in Hfound. discriminate.
    + destruct E as (Hkp & Hwf & Hcap & Hst).
      exists pre, o, ds, dt, cl, suf. repeat split; trivial.
      rewrite Hst in Hfound. unfold range_found in Hfound.
      cbn [end_ from to] in Hfound.
      apply andb_true_iff in Hfound. destruct Hfound as [_ Hle].
      now apply Z.leb_le.
  - intros pre o ds dt cl suf -> Hwf Hcap Hle.
    assert (well_formed pre "[" ds dt "]" = true) as Hwf'.
    { destruct (well_formed_inv _ _ _ _ _ Hwf)
        as (Hpre & _ & Hds & Hdt & _ & Hlds & Hldt).
      unfold well_formed. rewrite Hpre, Hds, Hdt. cbn [andb is_open is_close
        Ascii.eqb Bool.eqb orb].
      apply andb_true_iff. split; now apply Nat.leb_le. }
    split.
    + rewrite (scan_marker _ _ _ _ _ suf Hwf Hcap).
      unfold range_found. cbn [end_ from to].
      pose proof (strlen_nonneg pre). pose proof (strlen_nonneg ds).
      pose proof (strlen_nonneg dt).
      apply andb_true_iff. split; [apply Z.gtb_lt | apply Z.leb_le]; lia.
    + rewrite (expand_marker _ _ _ _ _ suf Hwf Hcap).
      rewrite (expand_marker _ _ _ _ _ suf Hwf' Hcap).
      destruct (Z.leb_spec (decimal ds) (decimal dt)); [| lia].
      rewrite !length_marker. reflexivity.
Qed.

Lemma marker_any_brackets_witness :
  let kp := chars_of "m/[0-1)" in
  range_found (scan kp) = true /\
  expand kp = expand (chars_of "m/[0-1]").
Proof.
  apply (proj2 (marker_any_brackets (chars_of "m/[0-1)") eq_refl)
           (chars_of "m/") "["%char (chars_of "0") (chars_of "1") ")"%char []).
  - reflexivity.
  - reflexivity.
  - reflexivity.
  - vm_compute. discriminate.
Defined.

(** C8 as stated fails: [m/[0-1)], opened by [[] and closed by [)], is
    expanded into the two paths [m/0] and [m/1]. *)
Lemma mismatched_brackets_expanded :
  let kp := chars_of "m/[0-1)" in
  expand kp = [path_buffer 23 (chars_of "m/0"); path_buffer 23 (chars_of "m/1")]
  /\ expand kp <> [c_literal kp].
Proof.
  vm_compute. split; [reflexivity | discriminate].
Qed.

(** C9: an empty numeral counts as 0.  With no digit before the dash,
    [from] is 0 and the indices run from 0 to [to]; with no digit after it,
    [to] is 0, so the expression is expanded (to index 0) only when [from]
    is 0 too and is otherwise left as it is. *)
Theorem empty_numeral_is_zero pre o ds dt cl suf :
  well_formed pre o ds dt cl = true ->
  within_cap pre ds dt = true ->
  let kp := marker pre o ds dt cl suf in
  (ds = [] ->
   from (scan kp) = Some 0 /\
   expand kp =
   map (fun k => path_buffer (length kp + 16)
                   (pre ++ sprintf_lld (Z.of_nat k) ++ suf))
       (seq 0 (Z.to_nat (decimal dt + 1)))) /\
  (dt = [] ->
   to (scan kp) = Some 0 /\
   (decimal ds = 0 ->
    expand kp = [path_buffer (length kp + 16) (pre ++ chars_of "0" ++ suf)]) /\
   (decimal ds <> 0 -> expand kp = [c_literal kp])).
Proof.
  intros Hwf Hcap kp. subst kp.
  destruct (well_formed_inv _ _ _ _ _ Hwf)
    as (_ & _ & Hds & Hdt & _ & Hlds & Hldt).
  pose proof (decimal_lt ds Hds Hlds). pose proof (decimal_lt dt Hdt Hldt).
  split.
  - intros ->. rewrite (expand_marker _ _ _ _ _ suf Hwf Hcap).
    rewrite (scan_marker _ _ _ _ _ suf Hwf Hcap). cbn [from].
    change (decimal []) with 0 in *. split; [reflexivity |].
    destruct (Z.leb_spec 0 (decimal dt)); [| lia].
    rewrite Z.sub_0_r. reflexivity.
  - intros ->. rewrite (expand_marker _ _ _ _ _ suf Hwf Hcap).
    rewrite (scan_marker _ _ _ _ _ suf Hwf Hcap). cbn [to].
    change (decimal []) with 0 in *. split; [reflexivity |]. split.
    + intros ->. reflexivity.
    + intros Hne. destruct (Z.leb_spec (decimal ds) 0); [lia | reflexivity].
Qed.

Lemma empty_numeral_is_zero_witness :
  let kp := chars_of "m/[-5]/0" in
  from (scan kp) = Some 0 /\
  expand kp =
  map (fun k => path_buffer (length kp + 16)
                  (chars_of "m/" ++ sprintf_lld (Z.of_nat k) ++ chars_of "/0"))
      (seq 0 6).
Proof.
  apply (proj1 (empty_numeral_is_zero (chars_of "m/") "["%char []
                  (chars_of "5") "]"%char (chars_of "/0") eq_refl eq_refl)).
  reflexivity.
Defined.

End HdDeriveFacts.

(** ** Facts on the sign command *)

Module SignFacts.
Import Sign SignSpec.

Section Facts.

Variable L : libbtc.
Variable chain : chainparams.

Lemma sign_hash_computed txhex scripthex pkey tx inputindex sighashtype amount :
  parsed L txhex tx inputindex ->
  let script := utils_hex_to_bin L scripthex in
  let hex :=
    utils_reverse_hex L
      (utils_uint8_to_hex L
         (btc_tx_sighash L tx script inputindex sighashtype 0 SIGVERSION_BASE)) in
  sign L chain (Some txhex) (Some scripthex) pkey inputindex sighashtype amount
  = after L
      (FreeDataBin
       :: TxSighash tx script inputindex sighashtype 0 SIGVERSION_BASE
       :: diagnostics L scripthex (btc_script_classify L script)
            inputindex sighashtype hex)
      (evaluate_key L chain pkey tx script amount inputindex sighashtype).
Proof.
  intros (Hlen & Hde & Hidx). cbn zeta. unfold sign.
  destruct (Z.gtb_spec (string_len txhex) (1024 * 100)); [lia |].
  rewrite Hde.
  destruct (Z.geb_spec (to_size_t inputindex) (vin_len L tx)); [lia |].
  reflexivity.
Qed.

Ltac in_list := cbn; repeat (first [left; reflexivity | right]).

Lemma sign_from_hash_step txhex scripthex pkey tx inputindex sighashtype amount :
  parsed L txhex tx inputindex ->
  sign L chain (Some txhex) (Some scripthex) pkey inputindex sighashtype amount
  = after L (hash_step L scripthex tx inputindex sighashtype)
      (evaluate_key L chain pkey tx (utils_hex_to_bin L scripthex) amount
         inputindex sighashtype).
Proof. intros H. now rewrite (sign_hash_computed _ _ _ tx). Qed.

(** C2: after the hash step the key is decoded.  A key that decodes is used
    to sign; one that does not and has more than 50 characters ends the
    command with status 1 and the error, the transaction and the script
    released first; a shorter one gets the notice, and the command ends with
    status 0 without calling the signing primitive. *)
Theorem key_evaluation txhex scripthex pk tx inputindex sighashtype amount :
  parsed L txhex tx inputindex ->
  let script := utils_hex_to_bin L scripthex in
  let hashed := hash_step L scripthex tx inputindex sighashtype in
  let decode := PrivkeyDecodeWif (Some pk) chain in
  let r := sign L chain (Some txhex) (Some scripthex) (Some pk) inputindex
             sighashtype amount in
  (forall key, btc_privkey_decode_wif L (Some pk) chain = Some key ->
     exists rest,
       r = (hashed ++ decode
              :: TxSignInput tx script amount key inputindex sighashtype
              :: rest, Exit 0)) /\
  (btc_privkey_decode_wif L (Some pk) chain = None -> 50 < string_len pk ->
     r = (hashed ++ [decode; TxFree; ScriptFree;
                     Printf ("Error: Invalid wif privkey" ++ nl ++ nl);
                     EccStop], Exit 1)) /\
  (btc_privkey_decode_wif L (Some pk) chain = None -> string_len pk <= 50 ->
     r = (hashed ++ [decode;
                     Printf ("No private key provided, signing will not happen"
                             ++ nl);
                     TxFree; EccStop], Exit 0)).
Proof.
  intros Hp. cbn zeta. rewrite (sign_from_hash_step _ _ _ tx) by assumption.
  unfold evaluate_key, after. repeat split.
  - intros key ->. unfold sign_and_print.
    destruct (btc_tx_sign_input L tx (utils_hex_to_bin L scripthex) amount key
                inputindex sighashtype) as [[[res sc] sd] tx'].
    cbn [fst snd app]. eexists. reflexivity.
  - intros -> Hlen.
    destruct (Z.gtb_spec (string_len pk) 50); [| lia].
    reflexivity.
  - intros -> Hlen.
    destruct (Z.gtb_spec (string_len pk) 50); [lia |]. reflexivity.
Qed.

(** C5: with [N] inputs, an index in [[0, N)] passes the check and the hash
    is computed; a negative index or one from [N] on ends the command with
    the out-of-range error before any hash is computed or anything else is
    printed.  The index is an [int]; [N], a [size_t], is the length of a
    vector of pointers and stays far below [2^64 - 2^31]. *)
Theorem input_index_check txhex scripthex pkey tx inputindex sighashtype amount :
  string_len txhex <= 1024 * 100 ->
  btc_tx_deserialize L (utils_hex_to_bin L txhex) = Some tx ->
  0 <= vin_len L tx <= 2 ^ 64 - 2 ^ 31 ->
  - 2 ^ 31 <= inputindex < 2 ^ 31 ->
  let r := sign L chain (Some txhex) (Some scripthex) pkey inputindex
             sighashtype amount in
  (0 <= inputindex < vin_len L tx ->
     exists rest,
       fst r = FreeDataBin
               :: TxSighash tx (utils_hex_to_bin L scripthex) inputindex
                    sighashtype 0 SIGVERSION_BASE
               :: rest) /\
  (inputindex < 0 \/ vin_len L tx <= inputindex ->
     r = ([FreeDataBin; TxFree;
           Printf ("Error: Inputindex out of range" ++ nl); EccStop], Exit 1)
     /\ existsb is_hash_or_output (fst r) = false).
Proof.
  intros Hlen Hde HN Hint. cbn zeta. split.
  - intros Hin.
    rewrite (sign_from_hash_step _ _ _ tx).
    + unfold after, hash_step. cbn [fst app]. eexists. reflexivity.
    + repeat split; trivial. unfold to_size_t. rewrite Z.mod_small; lia.
  - intros Hout.
    assert (vin_len L tx <= to_size_t inputindex) as Hge.
    { unfold to_size_t. destruct Hout as [Hneg | Hbig].
      - rewrite <- (Z.mod_add inputindex 1 (2 ^ 64)) by lia.
        rewrite Z.mod_small; lia.
      - rewrite Z.mod_small; lia. }
    assert (sign L chain (Some txhex) (Some scripthex) pkey inputindex
              sighashtype amount
            = ([FreeDataBin; TxFree;
                Printf ("Error: Inputindex out of range" ++ nl); EccStop],
               Exit 1)) as ->.
    { unfold sign.
      destruct (Z.gtb_spec (string_len txhex) (1024 * 100)); [lia |].
      rewrite Hde.
      destruct (Z.geb_spec (to_size_t inputindex) (vin_len L tx)); [| lia].
      reflexivity. }
    split; reflexivity.
Qed.

(** C3, as the code has it: the hash that is printed is computed for the
    script, the input index and the hash type of the request with the
    amount argument 0 and the base signature version; the amount of the
    request is passed to the signing primitive only. *)
Theorem sighash_amount_is_zero txhex scripthex pkey tx inputindex sighashtype
  amount :
  parsed L txhex tx inputindex ->
  let script := utils_hex_to_bin L scripthex in
  let r := sign L chain (Some txhex) (Some scripthex) pkey inputindex
             sighashtype amount in
  In (TxSighash tx script inputindex sighashtype 0 SIGVERSION_BASE) (fst r) /\
  sighash_amounts (fst r) = [0] /\
  In (Printf ("hash: "
              ++ utils_reverse_hex L
                   (utils_uint8_to_hex L
                      (btc_tx_sighash L tx script inputindex sighashtype 0
                         SIGVERSION_BASE))
              ++ nl)) (fst r) /\
  (forall key, btc_privkey_decode_wif L pkey chain = Some key ->
     In (TxSignInput tx script amount key inputindex sighashtype) (fst r) /\
     sign_amounts (fst r) = [amount]).
Proof.
  intros Hp. cbn zeta. rewrite (sign_from_hash_step _ _ _ tx) by assumption.
  unfold evaluate_key, after, sign_and_print, showError.
  destruct (btc_privkey_decode_wif L pkey chain) as [key |].
  - destruct (btc_tx_sign_input L tx (utils_hex_to_bin L scripthex) amount key
                inputindex sighashtype) as [[[res sc] sd] tx'].
    destruct (is_sign_ok L res);
      (split; [in_list | split; [reflexivity | split; [in_list |]]]);
      intros k Hk; injection Hk as <-; (split; [in_list | reflexivity]).
  - destruct pkey as [pk |]; [destruct (string_len pk >? 50) |];
      (split; [in_list | split; [reflexivity | split; [in_list |]]]);
      discriminate.
Qed.

(** C6: whenever the hash step is reached, the trace begins with the hash
    computation and the five diagnostic lines, and the decoding of the key
    comes right after them, for every key and whatever follows. *)
Theorem diagnostics_before_key txhex scripthex pkey tx inputindex sighashtype
  amount :
  parsed L txhex tx inputindex ->
  let script := utils_hex_to_bin L scripthex in
  let hash := btc_tx_sighash L tx script inputindex sighashtype 0
                SIGVERSION_BASE in
  let lines :=
    [ Printf ("script: " ++ scripthex ++ nl);
      Printf ("script-type: "
              ++ btc_tx_out_type_to_str L (btc_script_classify L script) ++ nl);
      Printf ("inputindex: " ++ show_int inputindex ++ nl);
      Printf ("sighashtype: " ++ show_int sighashtype ++ nl);
      Printf ("hash: " ++ utils_reverse_hex L (utils_uint8_to_hex L hash)
              ++ nl) ] in
  exists before rest,
    fst (sign L chain (Some txhex) (Some scripthex) pkey inputindex
           sighashtype amount)
    = before ++ lines ++ PrivkeyDecodeWif pkey chain :: rest /\
    existsb is_key_event (before ++ lines) = false.
Proof.
  intros Hp. cbn zeta. rewrite (sign_from_hash_step _ _ _ tx) by assumption.
  exists [FreeDataBin;
          TxSighash tx (utils_hex_to_bin L scripthex) inputindex sighashtype 0
            SIGVERSION_BASE].
  unfold evaluate_key, after, hash_step. cbn [fst app].
  eexists. split; reflexivity.
Qed.

(** C7: when the key decodes and the signing primitive reports a result
    other than OK, the reason is printed, the two signatures and the
    serialised transaction are printed all the same, and the command ends
    with status 0. *)
Theorem sign_failure_reported txhex scripthex pkey tx inputindex sighashtype
  amount key res sigcompact sigder tx' :
  parsed L txhex tx inputindex ->
  let script := utils_hex_to_bin L scripthex in
  btc_privkey_decode_wif L pkey chain = Some key ->
  btc_tx_sign_input L tx script amount key inputindex sighashtype
    = (res, sigcompact, sigder, tx') ->
  is_sign_ok L res = false ->
  sign L chain (Some txhex) (Some scripthex) pkey inputindex sighashtype amount
  = (hash_step L scripthex tx inputindex sighashtype
     ++ [ PrivkeyDecodeWif pkey chain;
          TxSignInput tx script amount key inputindex sighashtype;
          ScriptFree;
          Printf ("!!!Sign error:" ++ btc_tx_sign_result_to_str L res ++ nl);
          Printf (nl ++ "Signature created:" ++ nl);
          Printf ("signature compact: " ++ utils_bin_to_hex L sigcompact ++ nl);
          Printf ("signature DER (+hashtype): " ++ utils_bin_to_hex L sigder
                  ++ nl);
          Printf ("signed TX: "
                  ++ utils_bin_to_hex L (btc_tx_serialize L tx') ++ nl);
          SignedTxFree; TxFree; EccStop ],
     Exit 0).
Proof.
  intros Hp script Hkey Hsign Hres.
  rewrite (sign_from_hash_step _ _ _ tx) by assumption.
  unfold evaluate_key, after, sign_and_print. fold script.
  now rewrite Hkey, Hsign, Hres.
Qed.

(** C10: a key of exactly 50 characters that does not decode is no key: it
    passes the option loop, the notice is printed and the command ends with
    status 0, without the error and without a call of the signing
    primitive. *)
Theorem fifty_characters_is_no_key txhex scripthex pk tx inputindex sighashtype
  amount :
  parsed L txhex tx inputindex ->
  string_len pk = 50 ->
  btc_privkey_decode_wif L (Some pk) chain = None ->
  let r := sign L chain (Some txhex) (Some scripthex) (Some pk) inputindex
             sighashtype amount in
  r = (hash_step L scripthex tx inputindex sighashtype
       ++ [ PrivkeyDecodeWif (Some pk) chain;
            Printf ("No private key provided, signing will not happen" ++ nl);
            TxFree; EccStop ],
       Exit 0)
  /\ sign_amounts (fst r) = []
  /\ ~ In (Printf ("Error: Invalid wif privkey" ++ nl ++ nl)) (fst r)
  /\ privkey_accepted pk = true.
Proof.
  intros Hp Hlen Hkey. cbn zeta.
  rewrite (sign_from_hash_step _ _ _ tx) by assumption.
  unfold evaluate_key, after. rewrite Hkey.
  destruct (Z.gtb_spec (string_len pk) 50); [lia |].
  repeat split; [| unfold privkey_accepted; now rewrite Hlen].
  cbn. intros Hin.
  repeat (destruct Hin as [Hin | Hin]; [discriminate Hin |]). exact Hin.
Qed.

End Facts.

Ltac sample_parsed :=
  unfold parsed; repeat split; vm_compute; (reflexivity || discriminate).

Lemma key_evaluation_witness :
  sign sample_lib chain_main (Some "0100"%string) (Some "76a9"%string)
    (Some sample_bad_key) 0 1 0
  = (hash_step sample_lib "76a9" 2%nat 0 1
     ++ [ PrivkeyDecodeWif (Some sample_bad_key) chain_main; TxFree;
          ScriptFree; Printf ("Error: Invalid wif privkey" ++ nl ++ nl);
          EccStop ],
     Exit 1).
Proof.
  apply (proj1 (proj2 (key_evaluation sample_lib chain_main "0100" "76a9"
                         sample_bad_key 2%nat 0 1 0 ltac:(sample_parsed)))).
  - reflexivity.
  - vm_compute. reflexivity.
Defined.

Lemma input_index_check_witness :
  sign sample_lib chain_main (Some "0100"%string) (Some "76a9"%string)
    (Some sample_key) (-1) 1 0
  = ([FreeDataBin; TxFree; Printf ("Error: Inputindex out of range" ++ nl);
      EccStop], Exit 1).
Proof.
  apply (proj2 (input_index_check sample_lib chain_main "0100" "76a9"
                  (Some sample_key) 2%nat (-1) 1 0
                  ltac:(vm_compute; discriminate) eq_refl
                  ltac:(vm_compute; split; discriminate)
                  ltac:(vm_compute; split; [discriminate | reflexivity]))).
  left. reflexivity.
Defined.

Lemma sighash_amount_is_zero_witness :
  sighash_amounts
    (fst (sign sample_lib chain_main (Some "0100"%string) (Some "76a9"%string)
            (Some sample_key) 0 1 5)) = [0].
Proof.
  apply (sighash_amount_is_zero sample_lib chain_main "0100" "76a9"
           (Some sample_key) 2%nat 0 1 5 ltac:(sample_parsed)).
Defined.

(** C3 as stated fails: in a request with amount 5 the hash primitive is
    called with amount 0; the 5 reaches the signing primitive only. *)
Lemma sighash_amount_not_passed :
  let r := sign sample_lib chain_main (Some "0100"%string)
             (Some "76a9"%string) (Some sample_key) 0 1 5 in
  sighash_amounts (fst r) = [0] /\
  sighash_amounts (fst r) <> [5] /\
  sign_amounts (fst r) = [5].
Proof.
  vm_compute. repeat split; discriminate.
Qed.

Lemma diagnostics_before_key_witness :
  exists before rest,
    fst (sign sample_lib chain_main (Some "0100"%string) (Some "76a9"%string)
           (Some sample_bad_key) 0 1 0)
    = before
      ++ [ Printf ("script: 76a9" ++ nl);
           Printf ("script-type: TX_PUBKEYHASH" ++ nl);
           Printf ("inputindex: 0" ++ nl);
           Printf ("sighashtype: 1" ++ nl);
           Printf ("hash: 00" ++ nl) ]
      ++ PrivkeyDecodeWif (Some sample_bad_key) chain_main :: rest /\
    existsb is_key_event
      (before
       ++ [ Printf ("script: 76a9" ++ nl);
            Printf ("script-type: TX_PUBKEYHASH" ++ nl);
            Printf ("inputindex: 0" ++ nl);
            Printf ("sighashtype: 1" ++ nl);
            Printf ("hash: 00" ++ nl) ]) = false.
Proof.
  apply (diagnostics_before_key sample_lib chain_main "0100" "76a9"
           (Some sample_bad_key) 2%nat 0 1 0 ltac:(sample_parsed)).
Defined.

Lemma sign_failure_reported_witness :
  snd (sign sample_lib chain_main (Some "0100"%string) (Some "76a9"%string)
         (Some sample_key) 0 1 0) = Exit 0.
Proof.
  rewrite (sign_failure_reported sample_lib chain_main "0100" "76a9"
             (Some sample_key) 2%nat 0 1 0 sample_key false [] [] 2%nat
             ltac:(sample_parsed) eq_refl eq_refl eq_refl).
  reflexivity.
Defined.

Lemma fifty_characters_is_no_key_witness :
  string_len sample_short_key = 50 /\
  snd (sign sample_lib chain_main (Some "0100"%string) (Some "76a9"%string)
         (Some sample_short_key) 0 1 0) = Exit 0.
Proof.
  split; [reflexivity |].
  rewrite (proj1 (fifty_characters_is_no_key sample_lib chain_main "0100"
                    "76a9" sample_short_key 2%nat 0 1 0
                    ltac:(sample_parsed) eq_refl eq_refl)).
  reflexivity.
Defined.

End SignFacts.


(** ** Facts on the hdderive command *)

Module HdDeriveCommandFacts.
Import HdDerive HdDeriveSpec HdDeriveCommandSpec HdDeriveFacts.

Lemma all_digits_c_string (s : chars) : all_digits s = true -> c_string s = true.
Proof.
  unfold all_digits, c_string. intros H.
  rewrite forallb_forall in *. intros c Hc. specialize (H c Hc).
  digit_cases H; reflexivity.
Qed.

Lemma c_string_app (a b : chars) :
  c_string (a ++ b) = c_string a && c_string b.
Proof. apply forallb_app. Qed.

(** What the expander returns for a C string: the expression itself, or
    the arrays of a marker that was found. *)
Lemma expand_cases kp :
  c_string kp = true ->
  (range_found (scan kp) = false /\ expand kp = [c_literal kp]) \/
  (range_found (scan kp) = true /\
   exists pre o ds dt cl suf,
     kp = marker pre o ds dt cl suf /\
     well_formed pre o ds dt cl = true /\ within_cap pre ds dt = true /\
     decimal ds <= decimal dt /\
     expand kp =
     map (fun k => path_buffer (length kp + 16)
                     (pre ++ sprintf_lld (decimal ds + Z.of_nat k) ++ suf))
         (seq 0 (Z.to_nat (decimal dt + 1 - decimal ds)))).
Proof.
  intros Hc. destruct (range_found (scan kp)) eqn:Hr.
  - right. split; [reflexivity |].
    destruct (scan_complete kp Hc) as [E | (pre & o & ds & dt & cl & suf & E)].
    + rewrite (no_range_no_end _ E) in Hr. discriminate.
    + destruct E as (Hkp & Hwf & Hcap & Hst).
      exists pre, o, ds, dt, cl, suf.
      rewrite Hst in Hr. unfold range_found in Hr. cbn [end_ from to] in Hr.
      apply andb_true_iff in Hr. destruct Hr as [_ Hle].
      pose proof (expand_marker pre o ds dt cl suf Hwf Hcap) as He.
      cbn zeta in He. rewrite Hle in He. rewrite <- Hkp in He.
      apply Z.leb_le in Hle. repeat split; assumption.
  - left. split; [reflexivity |]. now apply expand_literal.
Qed.

(** X1: for every expression the expander yields at least one path and at
    most 10^8, so the command always attempts a derivation. *)
Theorem expand_count kp :
  c_string kp = true ->
  1 <= Z.of_nat (length (expand kp)) <= 10 ^ 8.
Proof.
  intros Hc.
  destruct (expand_cases kp Hc)
    as [[_ ->] | [_ (pre & o & ds & dt & cl & suf & _ & Hwf & _ & Hle & ->)]].
  - simpl. lia.
  - rewrite length_map, length_seq.
    destruct (well_formed_inv _ _ _ _ _ Hwf)
      as (_ & _ & Hds & Hdt & _ & Hlds & Hldt).
    pose proof (decimal_lt ds Hds Hlds). pose proof (decimal_lt dt Hdt Hldt).
    lia.
Qed.

Lemma expand_count_witness :
  1 <= Z.of_nat (length (expand (chars_of "m/[8-11]/x"))) <= 10 ^ 8.
Proof. apply (expand_count (chars_of "m/[8-11]/x")). reflexivity. Defined.





(** X3: in the range branch no terminator is stored.  Every array handed
    to [hd_derive] holds non-NUL bytes followed only by bytes that were
    never written, so reading it as a C string leaves the written part. *)
Theorem expansion_unterminated kp :
  c_string kp = true -> range_found (scan kp) = true ->
  forall b, In b (expand kp) -> read_cstr b = None.
Proof.
  intros Hc Hr b Hb.
  destruct (expand_cases kp Hc)
    as [[Hr' _] | [_ (pre & o & ds & dt & cl & suf & Hkp & Hwf & _ & Hle & He)]];
    [congruence |].
  rewrite He in Hb. apply in_map_iff in Hb. destruct Hb as (k & <- & Hk).
  apply in_seq in Hk.
  destruct (well_formed_inv _ _ _ _ _ Hwf)
    as (_ & _ & Hds & Hdt & _ & Hlds & Hldt).
  pose proof (decimal_lt ds Hds Hlds). pose proof (decimal_lt dt Hdt Hldt).
  destruct (sprintf_lld_spec (decimal ds + Z.of_nat k) ltac:(lia))
    as [(Hdig & _) _].
  apply path_buffer_unterminated.
  rewrite Hkp in Hc. unfold marker in Hc.
  rewrite c_string_app in Hc. apply andb_true_iff in Hc. destruct Hc as [Hpre Hc].
  assert (c_string suf = true) as Hsuf.
  { change (o :: ds ++ "-"%char :: dt ++ cl :: suf)
      with ([o] ++ ds ++ ["-"%char] ++ dt ++ [cl] ++ suf) in Hc.
    rewrite !c_string_app, !andb_true_iff in Hc. tauto. }
  rewrite !c_string_app, Hpre, Hsuf, (all_digits_c_string _ Hdig). reflexivity.
Qed.

Lemma expansion_unterminated_witness :
  read_cstr (nth 1 (expand (chars_of "m/0'/[2-3]/5")) []) = None.
Proof.
  apply (expansion_unterminated (chars_of "m/0'/[2-3]/5") eq_refl eq_refl).
  vm_compute. right. left. reflexivity.
Defined.

Section CommandRuns.

Variable hd_derive : chars -> buffer -> option chars.

Lemma derive_range_each pk kp st t :
  forall n i, i + Z.of_nat n <= t + 1 ->
  derive_range hd_derive pk kp st n i t
  = derive_each hd_derive pk (range_paths kp st n i t).
Proof.
  induction n as [| n IH]; intros i Hi.
  - reflexivity.
  - cbn [derive_range range_paths].
    destruct (Z.leb_spec i t); [| lia].
    cbn [derive_each].
    destruct (hd_derive pk (keypathnew kp st i)) as [key |].
    + rewrite IH by lia.
      destruct (derive_each hd_derive pk (range_paths kp st n (i + 1) t)).
      reflexivity.
    + reflexivity.
Qed.

(** The command is the expander followed by [derive_each]. *)
Lemma hdderive_derive_each pk kp :
  hdderive hd_derive (Some pk) (Some kp)
  = derive_each hd_derive pk (expand kp).
Proof.
  unfold hdderive, expand. destruct (range_found (scan kp)) eqn:Hr.
  - unfold range_found in Hr. apply andb_true_iff in Hr. destruct Hr as [_ Hr].
    destruct (from (scan kp)) as [f |]; [| discriminate].
    destruct (to (scan kp)) as [t |]; [| discriminate].
    apply Z.leb_le in Hr. apply derive_range_each. lia.
  - cbn [derive_each].
    destruct (hd_derive pk (c_literal kp)) as [key |]; reflexivity.
Qed.

Lemma derive_each_all pk paths :
  (forall path, In path paths -> hd_derive pk path <> None) ->
  derive_calls (fst (derive_each hd_derive pk paths)) = paths /\
  map Some (printed_nodes (fst (derive_each hd_derive pk paths)))
    = map (hd_derive pk) paths /\
  snd (derive_each hd_derive pk paths) = 0.
Proof.
  induction paths as [| p ps IH]; intros Hok.
  - repeat split.
  - cbn [derive_each].
    destruct (hd_derive pk p) as [key |] eqn:E;
      [| exfalso; apply (Hok p); [now left | exact E]].
    destruct (IH (fun q Hq => Hok q (or_intror Hq))) as (Hc & Hn & Hrc).
    cbn [fst snd derive_calls printed_nodes map].
    rewrite Hc, Hn, E. repeat split. exact Hrc.
Qed.

(** X4: when every derivation succeeds, the command calls [hd_derive] on
    exactly the paths of the expander, in order, prints the key derived from
    each, and ends with status 0. *)
Theorem hdderive_all_derived pk kp :
  (forall path, In path (expand kp) -> hd_derive pk path <> None) ->
  let r := hdderive hd_derive (Some pk) (Some kp) in
  derive_calls (fst r) = expand kp /\
  map Some (printed_nodes (fst r)) = map (hd_derive pk) (expand kp) /\
  snd r = 0.
Proof.
  intros Hok. cbn zeta. rewrite hdderive_derive_each.
  now apply derive_each_all.
Qed.

Lemma derive_each_first_failure pk :
  forall paths k,
  (k < length paths)%nat ->
  hd_derive pk (nth k paths []) = None ->
  (forall j, (j < k)%nat -> hd_derive pk (nth j paths []) <> None) ->
  derive_calls (fst (derive_each hd_derive pk paths)) = firstn (S k) paths /\
  length (printed_nodes (fst (derive_each hd_derive pk paths))) = k /\
  snd (derive_each hd_derive pk paths) = 1 /\
  exists before,
    fst (derive_each hd_derive pk paths)
    = before ++ [HdDerive (nth k paths []);
                 Printf ("Error: Deriving child key failed" ++ nl ++ nl);
                 EccStop].
Proof.
  induction paths as [| p ps IH]; intros k Hk Hfail Hok; [simpl in Hk; lia |].
  destruct k as [| k].
  - cbn [nth] in Hfail. cbn [derive_each]. rewrite Hfail.
    cbn. repeat split. exists []. reflexivity.
  - cbn [derive_each].
    destruct (hd_derive pk p) as [key |] eqn:E;
      [| exfalso; apply (Hok 0%nat); [lia | exact E]].
    destruct (IH k ltac:(simpl in Hk; lia) Hfail
                (fun j Hj => Hok (S j) ltac:(lia)))
      as (Hc & Hn & Hrc & before & Hev).
    cbn [fst snd derive_calls printed_nodes length nth].
    rewrite Hc, Hn, Hev. repeat split; try assumption.
    exists (HdDerive p :: HdPrintNode key :: before). reflexivity.
Qed.

(** X5: the first derivation that fails ends the command.  If the path
    number [k] of the expander is the first on which [hd_derive] fails, the
    command derives from the paths up to it and from no later one, prints
    [k] keys, then the error, stops the ECC context and returns 1. *)
Theorem hdderive_first_failure pk kp k :
  (k < length (expand kp))%nat ->
  hd_derive pk (nth k (expand kp) []) = None ->
  (forall j, (j < k)%nat -> hd_derive pk (nth j (expand kp) []) <> None) ->
  let r := hdderive hd_derive (Some pk) (Some kp) in
  derive_calls (fst r) = firstn (S k) (expand kp) /\
  length (printed_nodes (fst r)) = k /\
  snd r = 1 /\
  exists before,
    fst r = before ++ [HdDerive (nth k (expand kp) []);
                       Printf ("Error: Deriving child key failed" ++ nl ++ nl);
                       EccStop].
Proof.
  intros Hk Hfail Hok. cbn zeta. rewrite hdderive_derive_each.
  now apply derive_each_first_failure.
Qed.

End CommandRuns.

Lemma hdderive_all_derived_witness :
  let r := hdderive derive_terminated (Some (chars_of "xprv"))
             (Some (chars_of "m/100h/10")) in
  derive_calls (fst r) = expand (chars_of "m/100h/10") /\
  map Some (printed_nodes (fst r))
    = map (derive_terminated (chars_of "xprv")) (expand (chars_of "m/100h/10")) /\
  snd r = 0.
Proof.
  apply (hdderive_all_derived derive_terminated (chars_of "xprv")
           (chars_of "m/100h/10")).
  intros path [<- | []]. discriminate.
Defined.

Lemma hdderive_first_failure_witness :
  let r := hdderive derive_terminated (Some (chars_of "xprv"))
             (Some (chars_of "m/[2-3]")) in
  derive_calls (fst r) = firstn 1 (expand (chars_of "m/[2-3]")) /\
  length (printed_nodes (fst r)) = 0%nat /\
  snd r = 1.
Proof.
  destruct (hdderive_first_failure derive_terminated (chars_of "xprv")
              (chars_of "m/[2-3]") 0) as (H1 & H2 & H3 & _).
  - simpl. lia.
  - reflexivity.
  - intros j Hj. lia.
  - repeat split; assumption.
Defined.

End HdDeriveCommandFacts.

(** ** Facts on the traces of the sign command *)

Module SignTraceFacts.
Import Sign SignSpec SignTraceSpec SignFacts.

Section Traces.

Variable L : libbtc.
Variable chain : chainparams.

(** Splits a run of [sign] into its paths. *)
Ltac sign_paths txhex scripthex pkey tx inputindex sighashtype amount :=
  unfold sign, allocates;
  destruct txhex as [txhex |]; [| try reflexivity];
  [destruct scripthex as [scripthex |]; [| try reflexivity];
   [destruct (Z.gtb_spec (string_len txhex) (1024 * 100));
    [destruct (Z.leb_spec (string_len txhex) (1024 * 100)); [lia |]
    | destruct (Z.leb_spec (string_len txhex) (1024 * 100)); [| lia];
      destruct (btc_tx_deserialize L (utils_hex_to_bin L txhex)) as [tx |];
      [destruct (to_size_t inputindex >=? vin_len L tx);
       [| unfold evaluate_key, sign_and_print;
          destruct (btc_privkey_decode_wif L pkey chain) as [key |];
          [destruct (btc_tx_sign_input L tx (utils_hex_to_bin L scripthex)
                       amount key inputindex sighashtype)
             as [[[res sigcompact] sigder] tx'];
           destruct (is_sign_ok L res)
          | destruct pkey as [pk |];
            [destruct (Z.gtb_spec (string_len pk) 50) |]]]
      |]] | ] | ].

(** The ECC context is stopped once, at the end of every run that
    returns. *)
Lemma sign_stops_ecc_last txhex scripthex pkey inputindex sighashtype amount
  status :
  let r := sign L chain txhex scripthex pkey inputindex sighashtype amount in
  snd r = Exit status ->
  count is_ecc_stop (fst r) = 1%nat /\ last (fst r) FreeDataBin = EccStop.
Proof.
  cbn zeta.
  sign_paths txhex scripthex pkey tx inputindex sighashtype amount;
    cbn; intros Hst; try discriminate Hst; repeat split.
Qed.

Lemma sign_status txhex scripthex pkey inputindex sighashtype amount status :
  snd (sign L chain txhex scripthex pkey inputindex sighashtype amount)
    = Exit status ->
  status = 0 \/ status = 1.
Proof.
  sign_paths txhex scripthex pkey tx inputindex sighashtype amount;
    cbn; intros Hst; try discriminate Hst; injection Hst as <-; auto.
Qed.

(** Where the notice can come from. *)
Lemma sign_notice_inv txhex scripthex pkey inputindex sighashtype amount :
  In (Printf no_key_notice)
     (fst (sign L chain txhex scripthex pkey inputindex sighashtype amount)) ->
  exists pk,
    pkey = Some pk /\ btc_privkey_decode_wif L pkey chain = None /\
    string_len pk <= 50.
Proof.
  unfold no_key_notice.
  sign_paths txhex scripthex pkey tx inputindex sighashtype amount;
    cbn; intros Hin;
    repeat (destruct Hin as [Hin | Hin]; [try discriminate Hin |]);
    try contradiction.
  exists pk. repeat split; lia.
Qed.

(** X6: every run of the command that returns stops the ECC context
    exactly once, as its last action, and releases the transaction and the
    decoded transaction text exactly once when they were allocated, and
    never otherwise. *)
Theorem sign_releases_transaction txhex scripthex pkey inputindex sighashtype
  amount status :
  let r := sign L chain txhex scripthex pkey inputindex sighashtype amount in
  snd r = Exit status ->
  count is_ecc_stop (fst r) = 1%nat /\
  last (fst r) FreeDataBin = EccStop /\
  count is_tx_free (fst r) = (if allocates txhex scripthex then 1 else 0)%nat /\
  count is_free_data_bin (fst r)
    = (if allocates txhex scripthex then 1 else 0)%nat.
Proof.
  cbn zeta.
  sign_paths txhex scripthex pkey tx inputindex sighashtype amount;
    cbn; intros Hst; try discriminate Hst; repeat split.
Qed.

(** X7: the script is released exactly once when the key decodes or is
    rejected as invalid, and not at all in the no-key outcome, which
    releases the transaction and returns 0 with the script still
    allocated. *)
Theorem sign_script_release txhex scripthex pk tx inputindex sighashtype amount :
  parsed L txhex tx inputindex ->
  let r := sign L chain (Some txhex) (Some scripthex) (Some pk) inputindex
             sighashtype amount in
  (btc_privkey_decode_wif L (Some pk) chain <> None \/ 50 < string_len pk ->
     count is_script_free (fst r) = 1%nat) /\
  (btc_privkey_decode_wif L (Some pk) chain = None -> string_len pk <= 50 ->
     count is_script_free (fst r) = 0%nat /\
     count is_tx_free (fst r) = 1%nat /\ snd r = Exit 0).
Proof.
  intros Hp. cbn zeta. rewrite (sign_from_hash_step _ _ _ _ _ tx) by assumption.
  unfold evaluate_key, sign_and_print.
  destruct (btc_privkey_decode_wif L (Some pk) chain) as [key |].
  - destruct (btc_tx_sign_input L tx (utils_hex_to_bin L scripthex) amount key
                inputindex sighashtype) as [[[res sigcompact] sigder] tx'].
    split; [intros _; destruct (is_sign_ok L res); reflexivity | discriminate].
  - destruct (Z.gtb_spec (string_len pk) 50); split.
    + reflexivity.
    + lia.
    + intros [Hk | Hl]; [now contradiction Hk | lia].
    + intros _ _. repeat split.
Qed.

(** X8: the exit status tells whether [showError] was called.  A run that
    returns 0 made no [printf] call whose text starts with [Error: ]; a run
    that returns 1 made exactly one, as its last event before the stop of
    the ECC context; no other status is returned.  (A text printed from an
    argument, such as the script, is one call whatever lines it holds.) *)
Theorem sign_status_and_error txhex scripthex pkey inputindex sighashtype
  amount status :
  let r := sign L chain txhex scripthex pkey inputindex sighashtype amount in
  snd r = Exit status ->
  (status = 0 /\ count is_error_call (fst r) = 0%nat) \/
  (status = 1 /\ count is_error_call (fst r) = 1%nat /\
   exists before msg,
     fst r = before ++ [Printf ("Error: " ++ msg); EccStop]).
Proof.
  cbn zeta.
  sign_paths txhex scripthex pkey tx inputindex sighashtype amount;
    cbn; intros Hst; try discriminate Hst; injection Hst as <-;
    first [ left; split; reflexivity
          | right; split; [reflexivity |]; split; [reflexivity |];
            solve [ exists []; eexists; reflexivity
                  | eexists [_; _]; eexists; reflexivity
                  | eexists [_; _; _; _; _; _; _; _; _; _]; eexists;
                    reflexivity ] ].
Qed.

(** X9: without a key argument the command does not reach its notice.  When
    the library rejects the null key, the diagnostics are printed and the
    key is decoded, and then [strlen] is applied to the null pointer. *)
Theorem sign_without_key_undefined txhex scripthex tx inputindex sighashtype
  amount :
  parsed L txhex tx inputindex ->
  btc_privkey_decode_wif L None chain = None ->
  sign L chain (Some txhex) (Some scripthex) None inputindex sighashtype amount
  = (hash_step L scripthex tx inputindex sighashtype
     ++ [PrivkeyDecodeWif None chain], Undefined).
Proof.
  intros Hp Hk. rewrite (sign_from_hash_step _ _ _ _ _ tx) by assumption.
  unfold evaluate_key, after. now rewrite Hk.
Qed.

(** X10: the amount matters to the signing call only: when the key does
    not decode, two requests that differ in the amount alone have the same
    run. *)
Theorem sign_amount_unused_without_key txhex scripthex pkey inputindex
  sighashtype amount1 amount2 :
  btc_privkey_decode_wif L pkey chain = None ->
  sign L chain txhex scripthex pkey inputindex sighashtype amount1
  = sign L chain txhex scripthex pkey inputindex sighashtype amount2.
Proof.
  intros Hk. unfold sign, evaluate_key. rewrite Hk. reflexivity.
Qed.

End Traces.

Lemma sign_releases_transaction_witness :
  let r := sign sample_lib chain_main (Some "0100"%string)
             (Some "76a9"%string) (Some sample_key) 0 1 0 in
  count is_ecc_stop (fst r) = 1%nat /\
  last (fst r) FreeDataBin = EccStop /\
  count is_tx_free (fst r) = 1%nat /\
  count is_free_data_bin (fst r) = 1%nat.
Proof.
  apply (sign_releases_transaction sample_lib chain_main (Some "0100"%string)
           (Some "76a9"%string) (Some sample_key) 0 1 0 0).
  reflexivity.
Defined.

Lemma sign_script_release_witness :
  let r := sign sample_lib chain_main (Some "0100"%string)
             (Some "76a9"%string) (Some sample_short_key) 0 1 0 in
  count is_script_free (fst r) = 0%nat /\
  count is_tx_free (fst r) = 1%nat /\ snd r = Exit 0.
Proof.
  apply (proj2 (sign_script_release sample_lib chain_main "0100" "76a9"
                  sample_short_key 2%nat 0 1 0 ltac:(sample_parsed))).
  - reflexivity.
  - vm_compute. discriminate.
Defined.

Lemma sign_status_and_error_witness :
  let r := sign sample_lib chain_main (Some "0100"%string)
             (Some "76a9"%string) (Some sample_bad_key) 0 1 0 in
  (1 = 0 /\ count is_error_call (fst r) = 0%nat) \/
  (1 = 1 /\ count is_error_call (fst r) = 1%nat /\
   exists before msg,
     fst r = before ++ [Printf ("Error: " ++ msg); EccStop]).
Proof.
  apply (sign_status_and_error sample_lib chain_main (Some "0100"%string)
           (Some "76a9"%string) (Some sample_bad_key) 0 1 0 1).
  reflexivity.
Defined.

Lemma sign_without_key_undefined_witness :
  snd (sign sample_lib chain_main (Some "0100"%string) (Some "76a9"%string)
         None 0 1 0) = Undefined.
Proof.
  rewrite (sign_without_key_undefined sample_lib chain_main "0100" "76a9"
             2%nat 0 1 0 ltac:(sample_parsed) eq_refl).
  reflexivity.
Defined.

Lemma sign_amount_unused_without_key_witness :
  sign sample_lib chain_main (Some "0100"%string) (Some "76a9"%string)
    (Some sample_bad_key) 0 1 5
  = sign sample_lib chain_main (Some "0100"%string) (Some "76a9"%string)
      (Some sample_bad_key) 0 1 7.
Proof.
  apply (sign_amount_unused_without_key sample_lib chain_main
           (Some "0100"%string) (Some "76a9"%string) (Some sample_bad_key)
           0 1 5 7).
  reflexivity.
Defined.

End SignTraceFacts.

(** ** Facts on the option loop and on [main] *)

Module MainFacts.
Import Sign SignSpec SignTraceSpec Main MainSpec.
Import HdDeriveCommandSpec.

Lemma digit_not_space (c : ascii) : is_digit c = true -> isspace c = false.
Proof. intros H. digit_cases H; reflexivity. Qed.

Lemma length_list_ascii_of_string (s : string) :
  length (list_ascii_of_string s) = String.length s.
Proof. induction s as [| c s IH]; [reflexivity | cbn; now f_equal]. Qed.

(** [strtol] reads an unsigned decimal numeral of at most 18 digits as the
    number it denotes. *)
Lemma strtol_decimal (s : string) :
  all_digits (list_ascii_of_string s) = true ->
  (String.length s <= 18)%nat ->
  strtol s = decimal (list_ascii_of_string s).
Proof.
  intros Hd Hl. unfold strtol.
  assert (length (list_ascii_of_string s) <= 18)%nat as Hl'
    by now rewrite length_list_ascii_of_string.
  clear Hl. set (l := list_ascii_of_string s) in *. clearbody l.
  assert (Z.min (strtoull_acc l 0) LONG_MAX = decimal l) as Hmin.
  { rewrite strtoull_acc_decimal by assumption.
    pose proof (decimal_acc_bound l Hd 0 ltac:(lia)) as Hb.
    assert (10 ^ Z.of_nat (length l) <= 10 ^ 18)
      by (apply Z.pow_le_mono_r; lia).
    unfold decimal, LONG_MAX. apply Z.min_l. lia. }
  destruct l as [| c l]; [reflexivity |].
  pose proof Hd as Hc. simpl in Hc. apply andb_true_iff in Hc.
  destruct Hc as [Hc _].
  cbn [skip_space]. rewrite (digit_not_space c Hc).
  digit_cases Hc; exact Hmin.
Qed.

Section Program.

Variable T : toollib.

Lemma get_arguments_app args1 args2 o :
  get_arguments T (args1 ++ args2) o =
  match get_arguments T args1 o with
  | inl o' => get_arguments T args2 o'
  | inr r => inr r
  end.
Proof.
  revert o. induction args1 as [| [opt optarg] args1 IH]; intros o.
  - reflexivity.
  - cbn [app get_arguments].
    destruct (option_case T opt optarg o); [apply IH | reflexivity].
Qed.

(** X11: the amount that reaches the commands is the decimal argument only
    below 2^31.  An argument of at most 18 digits is cut to 32 bits and
    sign-extended, so a value from 2^31 on, 21.47 coins in satoshi, arrives
    as a different number; up to 2^32 it arrives as [2^64 - 2^32] plus the
    argument. *)
Theorem amount_cut_to_int (s : string) :
  all_digits (list_ascii_of_string s) = true ->
  (String.length s <= 18)%nat ->
  let n := decimal (list_ascii_of_string s) in
  exists o,
    get_arguments T [("a"%char, Some s)] initial_options = inl o /\
    (amount o = n <-> n < 2 ^ 31) /\
    (2 ^ 31 <= n < 2 ^ 32 -> amount o = 2 ^ 64 - 2 ^ 32 + n).
Proof.
  intros Hd Hl n. eexists. split; [reflexivity |].
  cbn [amount]. rewrite (strtol_decimal s Hd Hl). fold n.
  assert (0 <= n < 10 ^ 18) as Hn.
  { subst n. unfold decimal.
    pose proof (decimal_acc_bound _ Hd 0 ltac:(lia)) as Hb.
    assert (length (list_ascii_of_string s) <= 18)%nat as Hl'
      by now rewrite length_list_ascii_of_string.
    assert (10 ^ Z.of_nat (length (list_ascii_of_string s)) <= 10 ^ 18)
      by (apply Z.pow_le_mono_r; lia).
    lia. }
  unfold to_uint64, to_int.
  pose proof (Z.mod_pos_bound (n + 2 ^ 31) (2 ^ 32) ltac:(lia)) as Hm.
  split; [split |].
  - intros Heq. destruct (Z.lt_ge_cases n (2 ^ 31)) as [| Hge]; [assumption |].
    exfalso.
    destruct (Z.lt_ge_cases ((n + 2 ^ 31) mod 2 ^ 32 - 2 ^ 31) 0) as [Hneg | Hpos].
    + rewrite <- (Z.mod_add _ 1 (2 ^ 64)) in Heq by lia.
      rewrite Z.mod_small in Heq by lia. lia.
    + rewrite Z.mod_small in Heq by lia. lia.
  - intros Hlt. rewrite (Z.mod_small (n + 2 ^ 31)) by lia.
    rewrite Z.mod_small; lia.
  - intros [Hlo Hhi].
    replace (n + 2 ^ 31) with (n - 2 ^ 31 + 1 * 2 ^ 32) by lia.
    rewrite Z.mod_add by lia. rewrite (Z.mod_small (n - 2 ^ 31)) by lia.
    rewrite <- (Z.mod_add _ 1 (2 ^ 64)) by lia.
    rewrite Z.mod_small; lia.
Qed.

(** X12: the input index that reaches the commands is the decimal argument
    cut to 32 bits.  It always lies in the range of [int], agrees with the
    argument up to a multiple of 2^32, and equals it only below 2^31; so an
    argument of 2^32 selects input 0. *)
Theorem inputindex_cut_to_int (s : string) :
  all_digits (list_ascii_of_string s) = true ->
  (String.length s <= 18)%nat ->
  let n := decimal (list_ascii_of_string s) in
  exists o,
    get_arguments T [("i"%char, Some s)] initial_options = inl o /\
    - 2 ^ 31 <= inputindex o < 2 ^ 31 /\
    (inputindex o - n) mod 2 ^ 32 = 0 /\
    (inputindex o = n <-> n < 2 ^ 31).
Proof.
  intros Hd Hl n. eexists. split; [reflexivity |].
  cbn [inputindex]. rewrite (strtol_decimal s Hd Hl). fold n.
  assert (0 <= n) as Hn.
  { subst n. unfold decimal.
    pose proof (decimal_acc_bound _ Hd 0 ltac:(lia)). lia. }
  unfold to_int.
  pose proof (Z.mod_pos_bound (n + 2 ^ 31) (2 ^ 32) ltac:(lia)) as Hm.
  split; [lia |]. split.
  - pose proof (Z.div_mod (n + 2 ^ 31) (2 ^ 32) ltac:(lia)) as Hdm.
    replace ((n + 2 ^ 31) mod 2 ^ 32 - 2 ^ 31 - n)
      with (0 + - ((n + 2 ^ 31) / 2 ^ 32) * 2 ^ 32) by lia.
    rewrite Z.mod_add by lia. reflexivity.
  - split.
    + intros Heq. lia.
    + intros Hlt. rewrite Z.mod_small by lia. lia.
Qed.

End Program.

Lemma inputindex_cut_to_int_witness :
  exists o,
    get_arguments sample_tool [("i"%char, Some "4294967296"%string)]
      initial_options = inl o /\
    - 2 ^ 31 <= inputindex o < 2 ^ 31 /\
    (inputindex o - 4294967296) mod 2 ^ 32 = 0 /\
    (inputindex o = 4294967296 <-> 4294967296 < 2 ^ 31).
Proof.
  apply (inputindex_cut_to_int sample_tool "4294967296"); [reflexivity |].
  simpl. lia.
Defined.

Lemma amount_cut_to_int_witness :
  exists o,
    get_arguments sample_tool [("a"%char, Some "3000000000"%string)]
      initial_options = inl o /\
    (amount o = 3000000000 <-> 3000000000 < 2 ^ 31) /\
    (2 ^ 31 <= 3000000000 < 2 ^ 32 -> amount o = 2 ^ 64 - 2 ^ 32 + 3000000000).
Proof.
  apply (amount_cut_to_int sample_tool "3000000000"); [reflexivity |].
  simpl. lia.
Defined.

Section Runs.

Variable T : toollib.

Lemma filter_stops_from_sign (l : list (Sign.event (sign_lib T))) :
  filter stops_ecc (map FromSign l) = map FromSign (filter is_ecc_stop l).
Proof.
  induction l as [| e l IH]; [reflexivity |].
  destruct e; cbn; rewrite IH; reflexivity.
Qed.

Lemma filter_starts_from_sign (l : list (Sign.event (sign_lib T))) :
  filter starts_ecc (map (@FromSign T) l) = [].
Proof. induction l as [| e l IH]; [reflexivity | exact IH]. Qed.

Lemma filter_starts_from_hdderive (l : list HdDerive.event) :
  filter starts_ecc (map (@FromHdDerive T) l) = [].
Proof. induction l as [| e l IH]; [reflexivity | exact IH]. Qed.

Lemma printf_texts_from_sign (l : list (Sign.event (sign_lib T))) (line : string) :
  In line (printf_texts (map FromSign l)) -> In (Sign.Printf line) l.
Proof.
  induction l as [| e l IH]; [intros [] |].
  destruct e; cbn; intros H; try (right; now apply IH).
  destruct H as [-> | H]; [now left | right; now apply IH].
Qed.

(** A run of the sign command that returns stops the ECC context at its
    end. *)
Lemma sign_stops_at_end chain txhex scripthex pkey inputindex sighashtype
  amount status :
  let r := sign (sign_lib T) chain txhex scripthex pkey inputindex sighashtype
             amount in
  snd r = Exit status -> stops_at_end (map (@FromSign T) (fst r)).
Proof.
  intros r Hst.
  destruct (SignTraceFacts.sign_stops_ecc_last (sign_lib T) chain txhex
              scripthex pkey inputindex sighashtype amount status Hst)
    as [Hcount Hlast].
  fold r in Hcount, Hlast.
  assert (fst r <> []) as Hne by (intros E; rewrite E in Hcount; discriminate).
  pose proof (app_removelast_last Sign.FreeDataBin Hne) as Hsplit.
  rewrite Hlast in Hsplit.
  exists (map FromSign (removelast (fst r))), (FromSign Sign.EccStop).
  repeat split.
  - rewrite Hsplit at 1. now rewrite map_app.
  - rewrite filter_stops_from_sign.
    unfold count in Hcount. rewrite Hsplit, filter_app, length_app in Hcount.
    cbn in Hcount.
    destruct (filter is_ecc_stop (removelast (fst r))); [reflexivity |].
    simpl in Hcount. lia.
  - apply filter_starts_from_sign.
Qed.

(** The command [hdderive] stops the ECC context at its end and prints
    error lines only. *)
Lemma derive_each_stops_at_end hd_derive pk paths :
  exists l,
    fst (derive_each hd_derive pk paths) = l ++ [HdDerive.EccStop] /\
    filter stops_ecc (map (@FromHdDerive T) l) = [] /\
    ~ In no_key_notice (printf_texts (map (@FromHdDerive T) l)).
Proof.
  induction paths as [| p ps IH].
  - exists []. repeat split. intros [].
  - cbn [derive_each]. destruct (hd_derive pk p) as [key |].
    + destruct IH as (l & Hl & Hf & Hn).
      exists (HdDerive.HdDerive p :: HdDerive.HdPrintNode key :: l).
      cbn [fst]. rewrite Hl. repeat split; assumption.
    + eexists [_; _]. repeat split.
      cbn. intros [H | []]. discriminate H.
Qed.

Lemma hdderive_stops_at_end hd_derive pk kp :
  stops_at_end
    (map (@FromHdDerive T) (fst (HdDerive.hdderive hd_derive pk kp))) /\
  ~ In no_key_notice
      (printf_texts (map (@FromHdDerive T) (fst (HdDerive.hdderive hd_derive pk kp))))
  /\ (snd (HdDerive.hdderive hd_derive pk kp) = 0 \/
      snd (HdDerive.hdderive hd_derive pk kp) = 1).
Proof.
  assert (forall msg,
            stops_at_end
              (map (@FromHdDerive T) (fst (HdDerive.showError msg))) /\
            ~ In no_key_notice
                (printf_texts (map (@FromHdDerive T) (fst (HdDerive.showError msg)))))
    as Herr.
  { intros msg. split.
    - eexists [_], _. repeat split.
    - cbn. intros [H | []]. discriminate H. }
  destruct pk as [pk |]; [| destruct (Herr HdDerive.pkey_error); auto].
  destruct kp as [kp |];
    [| destruct (Herr "Missing keypath (use -m)"%string); auto].
  rewrite HdDeriveCommandFacts.hdderive_derive_each.
  destruct (derive_each_stops_at_end hd_derive pk (HdDerive.expand kp))
    as (l & Hl & Hf & Hn).
  rewrite Hl, map_app. repeat split.
  - exists (map FromHdDerive l), (FromHdDerive HdDerive.EccStop).
    repeat split; trivial.
    rewrite <- map_app. apply filter_starts_from_hdderive.
  - intros Hin. apply Hn. clear - Hin.
    induction l as [| e l IH]; [destruct Hin |].
    destruct e; cbn in *; try (now apply IH in Hin);
      destruct Hin as [-> | Hin]; [now left | right; now apply IH].
  - clear. induction (HdDerive.expand kp) as [| p ps IH];
      [now left |].
    cbn [derive_each]. destruct (hd_derive pk p); [exact IH | now right].
Qed.

End Runs.

Lemma string_length_append (a b : string) :
  String.length (a ++ b) = (String.length a + String.length b)%nat.
Proof. induction a as [| c a IH]; [reflexivity | cbn; now f_equal]. Qed.

Section Commands.

Variable T : toollib.

(** Splits [command] along its chain of tests, in the hypothesis [H]. *)
Ltac command_paths H c :=
  unfold command, returned, finished in H;
  repeat match type of H with
         | context [String.eqb c ?x] =>
             let E := fresh "Ecmd" in
             destruct (String.eqb c x) eqn:E; cbn [orb] in H; cbv iota in H
         end.

(** What a command does to the ECC context. *)
Lemma command_ecc o c evs e :
  command T o c = Some (evs, e) ->
  match e with
  | Falls => filter stops_ecc evs = [] /\ filter starts_ecc evs = []
  | Returns (Exit status) =>
      (stops_at_end evs /\ (status = 0 \/ status = 1)) \/
      (evs = [] /\ status = 0 /\ c = "bip32maintotest"%string /\
       btc_hdnode_deserialize T (pkey o) (chain o) = None)
  | Returns Undefined => True
  end.
Proof.
  intros H. command_paths H c.
  - (* pubfrompriv *)
    destruct (pkey o) as [pk |];
      [destruct (pubkey_from_privatekey T (chain o) pk) as [hex |];
       [destruct (addresses_from_pubkey T (chain o) hex) as [[[a1 a2] a3] |] |]
      |];
      injection H as <- <-; cbn; trivial;
      try (split; reflexivity);
      left; (split; [| now right]); eexists [_], _; repeat split.
  - (* addrfrompub *)
    destruct (pubkey o) as [pub |];
      [destruct (addresses_from_pubkey T (chain o) pub) as [[[a1 a2] a3] |] |];
      injection H as <- <-; cbn; try (split; reflexivity);
      left; (split; [| now right]); eexists [_], _; repeat split.
  - (* p2pkhaddrfrompub *)
    destruct (pubkey o) as [pub |];
      [destruct (addresses_from_pubkey T (chain o) pub) as [[[a1 a2] a3] |] |];
      injection H as <- <-; cbn; try (split; reflexivity);
      left; (split; [| now right]); eexists [_], _; repeat split.
  - (* genkey *)
    destruct (gen_privatekey T (chain o)) as [wif hex].
    injection H as <- <-. split; reflexivity.
  - (* crack *) discriminate H.
  - (* hdgenmaster *)
    injection H as <- <-. split; reflexivity.
  - (* hdprintkey *)
    destruct (pkey o) as [pk |];
      [destruct (hd_print_node T (chain o) pk) |];
      injection H as <- <-; cbn; try (split; reflexivity);
      left; (split; [| now right]);
      first [eexists [_], _; now repeat split
            | eexists [_; _], _; now repeat split].
  - (* hdderive *)
    destruct (HdDerive.hdderive (hd_derive T (chain o))
                (option_map list_ascii_of_string (pkey o))
                (option_map list_ascii_of_string (keypath o)))
      as [hevs rc] eqn:Eh.
    injection H as <- <-. left.
    pose proof (hdderive_stops_at_end T (hd_derive T (chain o))
                  (option_map list_ascii_of_string (pkey o))
                  (option_map list_ascii_of_string (keypath o))) as Hh.
    rewrite Eh in Hh. cbn [fst snd] in Hh. tauto.
  - (* sign *)
    destruct (sign (sign_lib T) (chain o) (txhex o) (scripthex o) (pkey o)
                (inputindex o) (sighashtype o) (amount o))
      as [sevs out] eqn:Es.
    injection H as <- <-. cbn [fst snd].
    destruct out as [status |]; [| exact I]. left. split.
    + pose proof (sign_stops_at_end T (chain o) (txhex o) (scripthex o)
                    (pkey o) (inputindex o) (sighashtype o) (amount o) status)
        as Hs.
      cbn zeta in Hs. rewrite Es in Hs. now apply Hs.
    + apply (SignTraceFacts.sign_status (sign_lib T) (chain o) (txhex o)
               (scripthex o) (pkey o) (inputindex o) (sighashtype o)
               (amount o)).
      now rewrite Es.
  - (* comp2der *)
    destruct (scripthex o) as [sh |];
      [destruct (string_len sh =? 128) |];
      injection H as <- <-; cbn; try (split; reflexivity);
      left; (split; [| now right]); eexists [_], _; repeat split.
  - (* bip32maintotest *)
    destruct (btc_hdnode_deserialize T (pkey o) (chain o)) as [node |] eqn:Ed;
      injection H as <- <-; cbn; [split; reflexivity |].
    right. repeat split. now apply String.eqb_eq.
  - (* no command of that name *)
    injection H as <- <-. split; reflexivity.
Qed.

(** Which command prints the notice of the sign command. *)
Lemma command_notice o c evs e :
  command T o c = Some (evs, e) ->
  In no_key_notice (printf_texts evs) ->
  c = "sign"%string /\
  exists pk,
    pkey o = Some pk /\
    btc_privkey_decode_wif (sign_lib T) (pkey o) (chain o) = None /\
    string_len pk <= 50.
Proof.
  intros H Hin. unfold no_key_notice in Hin. command_paths H c.
  - destruct (pkey o) as [pk |];
      [destruct (pubkey_from_privatekey T (chain o) pk) as [hex |];
       [destruct (addresses_from_pubkey T (chain o) hex) as [[[a1 a2] a3] |] |]
      |];
      injection H as <- <-; cbn in Hin;
      repeat (destruct Hin as [Hin | Hin]; [discriminate Hin |]);
      contradiction.
  - destruct (pubkey o) as [pub |];
      [destruct (addresses_from_pubkey T (chain o) pub) as [[[a1 a2] a3] |] |];
      injection H as <- <-; cbn in Hin;
      repeat (destruct Hin as [Hin | Hin]; [discriminate Hin |]);
      contradiction.
  - destruct (pubkey o) as [pub |];
      [destruct (addresses_from_pubkey T (chain o) pub) as [[[a1 a2] a3] |] |];
      injection H as <- <-; cbn in Hin;
      repeat (destruct Hin as [Hin | Hin]; [discriminate Hin |]);
      contradiction.
  - destruct (gen_privatekey T (chain o)) as [wif hex].
    injection H as <- <-. cbn in Hin.
    repeat (destruct Hin as [Hin | Hin]; [discriminate Hin |]). contradiction.
  - discriminate H.
  - injection H as <- <-. cbn in Hin.
    repeat (destruct Hin as [Hin | Hin]; [discriminate Hin |]). contradiction.
  - destruct (pkey o) as [pk |];
      [destruct (hd_print_node T (chain o) pk) |];
      injection H as <- <-; cbn in Hin;
      repeat (destruct Hin as [Hin | Hin]; [discriminate Hin |]);
      contradiction.
  - destruct (HdDerive.hdderive (hd_derive T (chain o))
                (option_map list_ascii_of_string (pkey o))
                (option_map list_ascii_of_string (keypath o)))
      as [hevs rc] eqn:Eh.
    injection H as <- <-. exfalso.
    pose proof (hdderive_stops_at_end T (hd_derive T (chain o))
                  (option_map list_ascii_of_string (pkey o))
                  (option_map list_ascii_of_string (keypath o))) as Hh.
    rewrite Eh in Hh. cbn [fst snd] in Hh. now apply Hh.
  - destruct (sign (sign_lib T) (chain o) (txhex o) (scripthex o) (pkey o)
                (inputindex o) (sighashtype o) (amount o))
      as [sevs out] eqn:Es.
    injection H as <- <-. cbn [fst] in Hin.
    apply printf_texts_from_sign in Hin.
    split; [now apply String.eqb_eq |].
    apply (SignTraceFacts.sign_notice_inv (sign_lib T) (chain o) (txhex o)
             (scripthex o) (pkey o) (inputindex o) (sighashtype o) (amount o)).
    now rewrite Es.
  - destruct (scripthex o) as [sh |];
      [destruct (Z.eqb_spec (string_len sh) 128) as [Hlen | Hlen] |];
      injection H as <- <-; cbn in Hin;
      repeat (destruct Hin as [Hin | Hin]; [try discriminate Hin |]);
      try contradiction.
    exfalso. apply (f_equal String.length) in Hin.
    rewrite string_length_append in Hin. unfold string_len in Hlen.
    cbn in Hin. lia.
  - destruct (btc_hdnode_deserialize T (pkey o) (chain o)) as [node |];
      injection H as <- <-; cbn in Hin;
      repeat (destruct Hin as [Hin | Hin]; [discriminate Hin |]);
      contradiction.
  - injection H as <- <-. contradiction.
Qed.

End Commands.

Section Whole.

Variable T : toollib.

(** Splits [option_case] along its chain of tests. *)
Ltac option_paths opt optarg :=
  unfold option_case;
  repeat match goal with
         | |- context [Ascii.eqb opt ?x] => destruct (Ascii.eqb opt x)
         end;
  try destruct optarg as [a |];
  try match goal with
      | |- context [string_len ?a <? 50] =>
          destruct (Z.ltb_spec (string_len a) 50)
      end.

(** The runs with which the option loop can end the program. *)
Lemma get_arguments_stopped args :
  forall o r,
  get_arguments T args o = inr r ->
  r = showError T "Private key must be WIF encoded" \/
  r = (print_version T, Exit 0) \/ r = (print_usage T, Exit 1) \/
  r = ([], Undefined).
Proof.
  induction args as [| [opt optarg] args IH]; intros o r H; [discriminate H |].
  cbn [get_arguments] in H.
  destruct (option_case T opt optarg o) as [o' | r'] eqn:E;
    [now apply (IH o') |].
  injection H as <-. revert E.
  option_paths opt optarg; intros E; try discriminate E;
    injection E as <-; tauto.
Qed.

(** A private key that passes the option loop has at least 50
    characters. *)
Lemma get_arguments_pkey args :
  forall o o',
  get_arguments T args o = inl o' ->
  (forall pk, pkey o = Some pk -> 50 <= string_len pk) ->
  forall pk, pkey o' = Some pk -> 50 <= string_len pk.
Proof.
  induction args as [| [opt optarg] args IH]; intros o o' H Ho;
    [injection H as <-; exact Ho |].
  cbn [get_arguments] in H.
  destruct (option_case T opt optarg o) as [o1 | r1] eqn:E; [| discriminate H].
  apply (IH o1 o' H). clear H IH. revert E.
  option_paths opt optarg; intros E; try discriminate E;
    injection E as <-; cbn [pkey]; try exact Ho.
  intros pk [= <-]. assumption.
Qed.

Lemma printf_texts_app (l1 l2 : list (event T)) :
  printf_texts (l1 ++ l2) = printf_texts l1 ++ printf_texts l2.
Proof.
  induction l1 as [| e l1 IH]; [reflexivity |].
  destruct e as [| | line | key | b | [] | []]; cbn; rewrite IH; reflexivity.
Qed.

(** X13: a private key of fewer than 50 characters ends the program in the
    option loop, whatever the command and the other options that follow it:
    the error is printed, the ECC context, which was not started, is
    stopped, and the status is 1. *)
Theorem short_private_key_stops args1 k args2 o :
  get_arguments T args1 initial_options = inl o ->
  string_len k < 50 ->
  main T (args1 ++ ("p"%char, Some k) :: args2)
  = Some ([Printf ("Error: Private key must be WIF encoded" ++ nl); EccStop],
          Exit 1).
Proof.
  intros Ho Hk. unfold main. rewrite get_arguments_app, Ho.
  cbn [get_arguments]. unfold option_case. cbn [Ascii.eqb Bool.eqb].
  destruct (Z.ltb_spec (string_len k) 50); [reflexivity | lia].
Qed.

(** X14: a command name that the program does not know is no error: the
    ECC context is started and stopped, nothing is printed, and the status
    is 0. *)
Theorem unknown_command_succeeds args o c :
  get_arguments T args initial_options = inl o ->
  cmd o = Some c ->
  ~ In c known_commands ->
  main T args = Some ([EccStart; EccStop], Exit 0).
Proof.
  intros Ho Hc Hn. unfold main. rewrite Ho, Hc. unfold command.
  repeat match goal with
         | |- context [String.eqb c ?x] =>
             destruct (String.eqb_spec c x) as [-> | _];
             [exfalso; apply Hn; cbn; tauto |]
         end.
  reflexivity.
Qed.

(** X15: the ECC context over a run of [main] that returns, for every
    command but [crack].  It is started
    at most once, first of all, and stopped at most once, last of all.  It
    is left running only by [bip32maintotest] on a key that does not
    deserialise, which returns 0 without output; it is stopped without
    having been started only by the refusal of a short private key. *)
Theorem ecc_lifecycle args evs status :
  main T args = Some (evs, Exit status) ->
  (length (filter starts_ecc evs) <= 1)%nat /\
  (filter starts_ecc evs <> [] -> hd EccStop evs = EccStart) /\
  (length (filter stops_ecc evs) <= 1)%nat /\
  (filter stops_ecc evs <> [] -> stops_ecc (last evs EccStart) = true) /\
  (filter starts_ecc evs <> [] -> filter stops_ecc evs = [] ->
     evs = [EccStart] /\ status = 0 /\
     exists o,
       get_arguments T args initial_options = inl o /\
       cmd o = Some "bip32maintotest"%string /\
       btc_hdnode_deserialize T (pkey o) (chain o) = None) /\
  (filter stops_ecc evs <> [] -> filter starts_ecc evs = [] ->
     evs = [Printf ("Error: Private key must be WIF encoded" ++ nl); EccStop]
     /\ status = 1).
Proof.
  unfold main. intros H.
  destruct (get_arguments T args initial_options) as [o | r] eqn:Eg.
  - destruct (cmd o) as [c |] eqn:Ec.
    + destruct (command T o c) as [[cevs e] |] eqn:Ecmd; [| discriminate H].
      pose proof (command_ecc T o c cevs e Ecmd) as Hsum.
      destruct e as [[st |] |].
      * injection H as <- <-.
        destruct Hsum as [[(l & e & -> & He & Hl & Hs) Hst]
                         | (-> & -> & -> & Hd)].
        -- cbn [filter starts_ecc stops_ecc hd]. rewrite Hs.
           rewrite filter_app, Hl. cbn [filter app]. rewrite He.
           change (EccStart :: l ++ [e]) with ((EccStart :: l) ++ [e]).
           rewrite last_last.
           repeat split; cbn; auto; try congruence; intros; discriminate.
        -- cbn. repeat split; auto; try congruence.
           exists o. repeat split; assumption.
      * discriminate H.
      * injection H as <- <-. destruct Hsum as [Hl Hs].
        cbn [filter starts_ecc stops_ecc hd].
        rewrite !filter_app, Hl, Hs. cbn [filter app stops_ecc starts_ecc].
        change (EccStart :: cevs ++ [EccStop])
          with ((EccStart :: cevs) ++ [@EccStop T]).
        rewrite last_last.
        repeat split; cbn; auto; try congruence; intros; discriminate.
    + injection H as <- <-. cbn.
      repeat split; auto; try congruence.
  - injection H as ->.
    destruct (get_arguments_stopped args _ _ Eg) as [E | [E | [E | E]]];
      unfold showError in E; try discriminate E; injection E as -> ->; cbn;
      repeat split; auto; try congruence.
Qed.

(** X16: over the whole program ([crack] apart), a [printf] call whose text
    is the notice that signing will not happen, the call of the no-key
    branch of [sign], is made only by the command [sign], only for a
    private key of exactly 50 characters, and only when that key does not
    decode.  (A text printed from an argument is one call of its own and is
    not split into lines.) *)
Theorem notice_needs_fifty_characters args evs out :
  main T args = Some (evs, out) ->
  In no_key_notice (printf_texts evs) ->
  exists o pk,
    get_arguments T args initial_options = inl o /\
    cmd o = Some "sign"%string /\
    pkey o = Some pk /\ string_len pk = 50 /\
    btc_privkey_decode_wif (sign_lib T) (Some pk) (chain o) = None.
Proof.
  unfold main. intros H Hin.
  destruct (get_arguments T args initial_options) as [o | r] eqn:Eg.
  - destruct (cmd o) as [c |] eqn:Ec.
    + destruct (command T o c) as [[cevs e] |] eqn:Ecmd; [| discriminate H].
      assert (In no_key_notice (printf_texts cevs)) as Hc.
      { destruct e as [out' |]; injection H as <- <-; cbn [printf_texts] in Hin;
          [exact Hin |].
        rewrite printf_texts_app in Hin. apply in_app_or in Hin.
        destruct Hin as [Hin | []]. exact Hin. }
      destruct (command_notice T o c cevs e Ecmd Hc)
        as (-> & pk & Hpk & Hk & Hlen).
      exists o, pk. rewrite Hpk in Hk. repeat split; trivial.
      pose proof (get_arguments_pkey args initial_options o Eg
                    ltac:(intros ? [=]) pk Hpk).
      lia.
    + injection H as <- <-. exfalso. unfold no_key_notice in Hin. cbn in Hin.
      repeat (destruct Hin as [Hin | Hin]; [discriminate Hin |]).
      contradiction.
  - exfalso. injection H as ->. unfold no_key_notice in Hin.
    destruct (get_arguments_stopped args _ _ Eg) as [E | [E | [E | E]]];
      unfold showError in E; injection E as -> ->; cbn in Hin;
      repeat (destruct Hin as [Hin | Hin]; [discriminate Hin |]);
      contradiction.
Qed.

End Whole.

Lemma short_private_key_stops_witness :
  main sample_tool
    ([("c"%char, Some "sign"%string)]
     ++ ("p"%char, Some "5K"%string) :: [("t"%char, None)])
  = Some ([Printf ("Error: Private key must be WIF encoded" ++ nl); EccStop],
          Exit 1).
Proof.
  apply (short_private_key_stops sample_tool [("c"%char, Some "sign"%string)]
           "5K" [("t"%char, None)]
           (mk_options None None (Some "sign"%string) None None None 0 1 0
              chain_main)).
  - reflexivity.
  - reflexivity.
Defined.

Lemma unknown_command_succeeds_witness :
  main sample_tool [("c"%char, Some "help"%string)]
  = Some ([EccStart; EccStop], Exit 0).
Proof.
  apply (unknown_command_succeeds sample_tool
           [("c"%char, Some "help"%string)]
           (mk_options None None (Some "help"%string) None None None 0 1 0
              chain_main) "help").
  - reflexivity.
  - reflexivity.
  - cbn. intros H.
    repeat (destruct H as [H | H]; [discriminate H |]). exact H.
Defined.

Lemma ecc_lifecycle_witness :
  main sample_tool [("c"%char, Some "bip32maintotest"%string)]
    = Some ([EccStart], Exit 0) /\
  (length (filter starts_ecc [@EccStart sample_tool]) <= 1)%nat.
Proof.
  split; [reflexivity |].
  exact (proj1 (ecc_lifecycle sample_tool
                  [("c"%char, Some "bip32maintotest"%string)] [EccStart] 0
                  eq_refl)).
Defined.

Lemma notice_needs_fifty_characters_witness :
  exists o pk,
    get_arguments sample_tool
      [("c"%char, Some "sign"%string); ("x"%char, Some "0100"%string);
       ("s"%char, Some "76a9"%string); ("p"%char, Some sample_short_key)]
      initial_options = inl o /\
    cmd o = Some "sign"%string /\
    pkey o = Some pk /\ string_len pk = 50 /\
    btc_privkey_decode_wif (sign_lib sample_tool) (Some pk) (chain o) = None.
Proof.
  eapply (notice_needs_fifty_characters sample_tool
            [("c"%char, Some "sign"%string); ("x"%char, Some "0100"%string);
             ("s"%char, Some "76a9"%string); ("p"%char, Some sample_short_key)]).
  - reflexivity.
  - vm_compute. do 5 right. left. reflexivity.
Defined.

End MainFacts.


(** ** The reach of the scan *)

Module ScanReachFacts.
Import HdDerive HdDeriveSpec HdDeriveFacts.

Lemma numeral_buf_firstn kp p n :
  0 <= p -> 0 <= n -> p + n <= 1025 ->
  numeral_buf (firstn 1025 kp) p n = numeral_buf kp p n.
Proof.
  intros Hp Hn Hb. unfold numeral_buf.
  rewrite skipn_firstn_comm, firstn_firstn. f_equal. lia.
Qed.

(** One iteration below the cap reads the expression within its first 1025
    characters only. *)
Lemma scan_body_firstn kp i c st :
  0 <= i <= maxlen ->
  -1 <= posanum st <= i -> -1 <= posbnum st <= i ->
  scan_body (firstn 1025 kp) i c st = scan_body kp i c st.
Proof.
  intros Hi Ha Hb. unfold scan_body, u32, maxlen in *.
  destruct (Z.gtb_spec (posanum st) (-1)) as [Hpa | Hpa]; cbn [andb].
  - rewrite (Z.mod_small (i - posanum st)) by lia.
    destruct (posbnum st =? -1).
    + destruct (Ascii.eqb c "-"%char); [| reflexivity].
      destruct (i - posanum st >=? 9); [reflexivity |].
      rewrite numeral_buf_firstn by lia. reflexivity.
    + destruct (Z.gtb_spec (posbnum st) (-1)) as [Hpb | Hpb]; [| reflexivity].
      rewrite (Z.mod_small (i - posbnum st)) by lia.
      destruct (is_close c); [| reflexivity].
      destruct (i - posbnum st >=? 9); [reflexivity |].
      rewrite numeral_buf_firstn by lia. reflexivity.
  - reflexivity.
Qed.

(** The positions that an iteration records are at most the next index. *)
Lemma scan_body_positions kp i c st st' :
  -1 <= posanum st <= i -> -1 <= posbnum st <= i ->
  scan_body kp i c st = Continue st' ->
  -1 <= posanum st' <= i + 1 /\ -1 <= posbnum st' <= i + 1.
Proof.
  intros Ha Hb. unfold scan_body, open_test.
  repeat match goal with
         | |- context [if ?b then _ else _] => destruct b
         end;
    intros [= <-]; cbn [posanum posbnum]; lia.
Qed.

Lemma scan_loop_firstn kp :
  forall rest i st,
  0 <= i -> -1 <= posanum st <= i -> -1 <= posbnum st <= i ->
  scan_loop (firstn 1025 kp) (firstn (Z.to_nat (1025 - i)) rest) i st
  = scan_loop kp rest i st.
Proof.
  induction rest as [| c rest IH]; intros i st Hi Ha Hb.
  - now rewrite firstn_nil.
  - cbn [scan_loop]. destruct (Z.gtb_spec i maxlen) as [Hcap | Hcap].
    + unfold maxlen in Hcap.
      replace (Z.to_nat (1025 - i)) with 0%nat by lia. reflexivity.
    + unfold maxlen in Hcap.
      replace (Z.to_nat (1025 - i)) with (S (Z.to_nat (1025 - (i + 1))))
        by lia.
      rewrite firstn_cons. cbn [scan_loop].
      destruct (Z.gtb_spec i maxlen) as [Hcap' | _];
        [unfold maxlen in Hcap'; lia |].
      rewrite scan_body_firstn by (unfold maxlen; lia).
      destruct (scan_body kp i c st) as [st' | st'] eqn:E; [| reflexivity].
      destruct (scan_body_positions kp i c st st' Ha Hb E).
      apply IH; lia.
Qed.

(** X17: the scan never looks beyond the first 1025 characters.  Two
    expressions that agree on them leave the scan in the same state: both
    are expanded or neither is, from the same marker and with the same
    bounds. *)
Theorem scan_reads_1025_characters kp1 kp2 :
  firstn 1025 kp1 = firstn 1025 kp2 ->
  scan kp1 = scan kp2 /\
  range_found (scan kp1) = range_found (scan kp2).
Proof.
  intros H.
  assert (forall kp, scan kp = scan_loop (firstn 1025 kp) (firstn 1025 kp) 0
                                scan_init) as Hs.
  { intros kp. unfold scan.
    rewrite <- (scan_loop_firstn kp kp 0 scan_init) by (cbn; lia).
    reflexivity. }
  assert (scan kp1 = scan kp2) as E by (rewrite (Hs kp1), (Hs kp2), H; reflexivity).
  split; [exact E | now rewrite E].
Qed.

Lemma scan_reads_1025_characters_witness :
  let pre := repeat "a"%char 1021 in
  scan (pre ++ chars_of "[0-1]") = scan (pre ++ chars_of "[0-1") /\
  range_found (scan (pre ++ chars_of "[0-1]"))
    = range_found (scan (pre ++ chars_of "[0-1")).
Proof.
  apply (scan_reads_1025_characters
           (repeat "a"%char 1021 ++ chars_of "[0-1]")
           (repeat "a"%char 1021 ++ chars_of "[0-1")).
  reflexivity.
Defined.

End ScanReachFacts.
